(** * Lenstra's elliptic-curve factorisation: a shallow embedding of [main.py]

    The Python program keeps one mutable object, the curve, whose field
    [div] records the last non-unit gcd met by an addition.  Every method
    is therefore embedded as a function from the curve before the call to
    a Python outcome (a value or a raised exception) paired with the curve
    after the call.  Integers are unbounded, so they are [Z]. *)

From Stdlib Require Import ZArith Znumtheory Zcong List String Ascii Bool Lia.
From Stdlib Require DecimalString DecimalZ.
Import ListNotations.
Local Open Scope Z_scope.

(** ** Python outcomes *)

(** The exceptions the program's statements can raise. *)
Inductive exn : Type :=
| CannotAdd
| ValueError
| ZeroDivisionError
| IndexError.

Definition exn_eqb (e1 e2 : exn) : bool :=
  match e1, e2 with
  | CannotAdd, CannotAdd => true
  | ValueError, ValueError => true
  | ZeroDivisionError, ZeroDivisionError => true
  | IndexError, IndexError => true
  | _, _ => false
  end.

Inductive result (A : Type) : Type :=
| Ok (v : A)
| Raise (e : exn).
Arguments Ok {A} v.
Arguments Raise {A} e.

(** ** Built-ins used by the program *)

(** [x % n]: floor remainder, [ZeroDivisionError] for a zero modulus. *)
Definition pymod (x n : Z) : result Z :=
  if n =? 0 then Raise ZeroDivisionError else Ok (x mod n).

(** [inverse(a, n)], that is [pow(a, -1, n)]: [ValueError] when the modulus
    is zero or the base is not invertible; otherwise the inverse, with the
    sign of the modulus. *)
Definition inverse (a n : Z) : result Z :=
  if n =? 0 then Raise ValueError
  else if Z.gcd a n =? 1 then Ok (Z.invmod a (Z.abs n) mod n)
  else Raise ValueError.

(** Binary digits of a positive number, most significant first. *)
Fixpoint bin_digits (p : positive) (acc : string) : string :=
  match p with
  | xH => String "1"%char acc
  | xO p' => bin_digits p' (String "0"%char acc)
  | xI p' => bin_digits p' (String "1"%char acc)
  end.

(** [bin(k)]. *)
Definition bin (k : Z) : string :=
  match k with
  | Z0 => "0b0"%string
  | Zpos p => ("0b" ++ bin_digits p "")%string
  | Zneg p => ("-0b" ++ bin_digits p "")%string
  end.

(** [s[n:]]. *)
Fixpoint slice_from (n : nat) (s : string) : string :=
  match n, s with
  | O, _ => s
  | S _, EmptyString => EmptyString
  | S n', String _ s' => slice_from n' s'
  end.

(** [enumerate(s)], counting from [i]. *)
Fixpoint enumerate_from (i : nat) (s : string) : list (nat * ascii) :=
  match s with
  | EmptyString => []
  | String c s' => (i, c) :: enumerate_from (S i) s'
  end.

Definition enumerate (s : string) : list (nat * ascii) := enumerate_from 0 s.

(** [random.randint(lo, hi)]: [ValueError] on an empty range, otherwise the
    value [drawn], which the caller takes from [lo..hi]. *)
Definition randint (lo hi drawn : Z) : result Z :=
  if hi <? lo then Raise ValueError else Ok drawn.

(** The decimal digits of an integer, after ["-"] when it is negative. *)
Definition decimal (z : Z) : string :=
  DecimalString.NilZero.string_of_int (Z.to_int z).

(** The number of decimal digits of an integer, its sign left out. *)
Definition digit_count (z : Z) : nat :=
  String.length (decimal (Z.abs z)).

(** [str(z)] for an integer, as [format] and f-strings compute it.
    [max_str_digits] is the interpreter's limit on integer string
    conversion ([sys.get_int_max_str_digits()]: 4300 unless it is changed
    to 0 or to a value of at least 640; 0 when there is none, as in
    interpreters that predate the limit): an integer with more digits
    raises [ValueError]. *)
Definition str (max_str_digits : nat) (z : Z) : result string :=
  if ((0 <? max_str_digits) && (max_str_digits <? digit_count z))%nat
  then Raise ValueError
  else Ok (decimal z).

(** ** class Point *)

Module Point.

Record t : Type := mk { x : Z; y : Z }.

(** [__eq__]: the other operand may be [None], which has another type. *)
Definition eq (self : t) (other : option t) : bool :=
  match other with
  | Some o => (x self =? x o) && (y self =? y o)
  | None => false
  end.

(** [__repr__]: the two coordinates are converted in turn, and a
    conversion that raises ends the call. *)
Definition repr (max_str_digits : nat) (self : t) : result string :=
  match str max_str_digits (x self) with
  | Raise e => Raise e
  | Ok sx =>
      match str max_str_digits (y self) with
      | Raise e => Raise e
      | Ok sy => Ok ("(x,y) = (" ++ sx ++ ", " ++ sy ++ ")")%string
      end
  end.

End Point.

(** [p == q] on values that are a [Point] or [None]. *)
Definition py_eq (p q : option Point.t) : bool :=
  match p, q with
  | Some p', _ => Point.eq p' q
  | None, None => true
  | None, Some _ => false
  end.

(** ** class EllipticCurve *)

Module EllipticCurve.

Record t : Type := mk { a : Z; b : Z; N : Z; div : Z }.

(** [__init__]. *)
Definition init (a0 b0 N0 : Z) : t := mk a0 b0 N0 1.

(** [self.div = d]. *)
Definition set_div (d : Z) (self : t) : t := mk (a self) (b self) (N self) d.

(** A method body: the curve before, an outcome and the curve after. *)
Definition M (A : Type) : Type := t -> result A * t.

Definition ret {A} (v : A) : M A := fun self => (Ok v, self).

Definition raise {A} (e : exn) : M A := fun self => (Raise e, self).

Definition bind {A B} (m : M A) (k : A -> M B) : M B :=
  fun self =>
    match m self with
    | (Ok v, self') => k v self'
    | (Raise e, self') => (Raise e, self')
    end.

Definition lift {A} (r : result A) : M A := fun self => (r, self).

Definition get : M t := fun self => (Ok self, self).

Definition assign_div (d : Z) : M unit := fun self => (Ok tt, set_div d self).

(** [try: body except e: handler]. *)
Definition try_except {A} (body : M A) (e : exn) (handler : M A) : M A :=
  fun self =>
    match body self with
    | (Ok v, self') => (Ok v, self')
    | (Raise e', self') =>
        if exn_eqb e' e then handler self' else (Raise e', self')
    end.

Declare Scope curve_scope.
Delimit Scope curve_scope with curve.
Notation "v <- m ;; k" := (bind m (fun v => k))
  (at level 61, m at next level, right associativity) : curve_scope.
Notation "m ;; k" := (bind m (fun _ => k))
  (at level 61, right associativity) : curve_scope.
Local Open Scope curve_scope.

(** The statements of [sum] inside its [try]. *)
Definition sum_body (p q : option Point.t) : M (option Point.t) :=
  match p with
  | None => ret q
  | Some pp =>
    match q with
    | None => ret p
    | Some qq =>
      self <- get ;;
      if Point.eq pp q then
        if negb (Z.gcd (2 * Point.y pp) (N self) =? 1) then
          assign_div (Z.gcd (2 * Point.y pp) (N self)) ;;
          raise CannotAdd
        else
          inv <- lift (inverse (2 * Point.y pp) (N self)) ;;
          let slope := (3 * Point.x pp * Point.x pp + a self) * inv in
          x <- lift (pymod (slope * slope - 2 * Point.x pp) (N self)) ;;
          y <- lift (pymod (slope * (Point.x pp - x) - Point.y pp) (N self)) ;;
          ret (Some (Point.mk x y))
      else
        if negb (Z.gcd (Point.x qq - Point.x pp) (N self) =? 1) then
          assign_div (Z.gcd (Point.x qq - Point.x pp) (N self)) ;;
          raise CannotAdd
        else
          inv <- lift (inverse (Point.x qq - Point.x pp) (N self)) ;;
          let slope := (Point.y qq - Point.y pp) * inv in
          x3 <- lift (pymod (slope * slope - Point.x pp - Point.x qq) (N self)) ;;
          y3 <- lift (pymod (slope * (Point.x pp - x3) - Point.y pp) (N self)) ;;
          ret (Some (Point.mk x3 y3))
    end
  end.

(** [sum]: the body, with [CannotAdd] turned into [None]. *)
Definition sum (p q : option Point.t) : M (option Point.t) :=
  try_except (sum_body p q) CannotAdd (ret None).

(** [l[-1]]. *)
Definition index_last {A} (l : list A) : M A :=
  match rev l with
  | v :: _ => ret v
  | [] => raise IndexError
  end.

(** [l[i]] for a non-negative [i]. *)
Definition index {A} (l : list A) (i : nat) : M A :=
  match nth_error l i with
  | Some v => ret v
  | None => raise IndexError
  end.

(** The first loop of [mult]: [n] rounds of doubling the last entry. *)
Fixpoint doublings (n : nat) (powers_of_two : list (option Point.t))
  : M (list (option Point.t)) :=
  match n with
  | O => ret powers_of_two
  | S n' =>
      p1 <- index_last powers_of_two ;;
      p2 <- index_last powers_of_two ;;
      new_point <- sum p1 p2 ;;
      doublings n' (powers_of_two ++ [new_point])
  end.

(** The second loop of [mult], over the enumerated digits. *)
Fixpoint accumulate (powers_of_two : list (option Point.t))
    (digits : list (nat * ascii)) (q : option Point.t)
  : M (option Point.t) :=
  match digits with
  | [] => ret q
  | (i, v) :: rest =>
      if Ascii.eqb v "1"%char then
        pi <- index powers_of_two i ;;
        q' <- sum pi q ;;
        accumulate powers_of_two rest q'
      else accumulate powers_of_two rest q
  end.

(** [mult]. *)
Definition mult (p : option Point.t) (k : Z) : M (option Point.t) :=
  if py_eq p None then ret None
  else
    let binary_expansion := slice_from 2 (bin k) in
    let m := String.length binary_expansion in
    try_except
      (powers_of_two <- doublings (m - 1)%nat [p] ;;
       accumulate powers_of_two (enumerate binary_expansion) None)
      CannotAdd (ret None).

(** [check]. *)
Definition check (p q : Point.t) : M Z :=
  self <- get ;;
  if Point.eq p (Some q) then ret (Z.gcd (2 * Point.y p) (N self))
  else ret (Z.gcd (Point.x q - Point.x p) (N self)).

End EllipticCurve.

(** ** Lenstra *)

(** How one pass through the [while] statement ends. *)
Inductive pass : Type :=
| Continue (point : option Point.t) (i : Z) (E : EllipticCurve.t)
| Break (E : EllipticCurve.t)
| Uncaught (e : exn) (E : EllipticCurve.t).

(** The loop test and one execution of the loop body. *)
Definition loop_pass (point : option Point.t) (i : Z) (E : EllipticCurve.t)
  : pass :=
  if EllipticCurve.div E =? 1 then
    if py_eq point None then Break E
    else
      match EllipticCurve.mult point i E with
      | (Ok point', E') => Continue point' (i + 1) E'
      | (Raise CannotAdd, E') => Break E'
      | (Raise e, E') => Uncaught e E'
      end
  else Break E.

(** The [while] loop; [None] when [fuel] passes do not reach its exit. *)
Fixpoint while_loop (fuel : nat) (point : option Point.t) (i : Z)
    (E : EllipticCurve.t) : option (result unit * EllipticCurve.t) :=
  match fuel with
  | O => None
  | S fuel' =>
      match loop_pass point i E with
      | Continue point' i' E' => while_loop fuel' point' i' E'
      | Break E' => Some (Ok tt, E')
      | Uncaught e E' => Some (Raise e, E')
      end
  end.

(** The working point, counter and curve at the loop test after [n] passes
    that all went on to the next one. *)
Fixpoint passes (n : nat) (point : option Point.t) (i : Z)
    (E : EllipticCurve.t) : option (option Point.t * Z * EllipticCurve.t) :=
  match n with
  | O => Some (point, i, E)
  | S n' =>
      match loop_pass point i E with
      | Continue point' i' E' => passes n' point' i' E'
      | _ => None
      end
  end.

(** The loop followed by [return E.div]. *)
Definition Lenstra_from (fuel : nat) (point : option Point.t) (i : Z)
    (E : EllipticCurve.t) : option (result Z) :=
  match while_loop fuel point i E with
  | None => None
  | Some (Ok _, E') => Some (Ok (EllipticCurve.div E'))
  | Some (Raise e, _) => Some (Raise e)
  end.

(** [Lenstra(N)], with the three random draws [x0], [y0], [a] as inputs. *)
Definition Lenstra (fuel : nat) (N x0 y0 a : Z) : option (result Z) :=
  match randint 1 N x0, randint 1 N y0, randint 1 N a with
  | Ok x0, Ok y0, Ok a =>
      match pymod (y0 * y0 - x0 * x0 * x0 - a * x0) N with
      | Ok b =>
          let E := EllipticCurve.init a b N in
          let point := Some (Point.mk x0 y0) in
          Lenstra_from fuel point 1 E
      | Raise e => Some (Raise e)
      end
  | Raise e, _, _ => Some (Raise e)
  | _, Raise e, _ => Some (Raise e)
  | _, _, Raise e => Some (Raise e)
  end.

(** ** Clients of a curve *)

(** A call a client makes on a curve object. *)
Inductive call : Type :=
| call_sum (p q : option Point.t)
| call_mult (p : option Point.t) (k : Z).

(** The curve after one call; Python keeps the object as the call left it
    whether the call returned or raised. *)
Definition after_call (E : EllipticCurve.t) (c : call) : EllipticCurve.t :=
  match c with
  | call_sum p q => snd (EllipticCurve.sum p q E)
  | call_mult p k => snd (EllipticCurve.mult p k E)
  end.

(** The curve after a sequence of calls, first call first. *)
Definition after_calls (cs : list call) (E : EllipticCurve.t)
  : EllipticCurve.t :=
  fold_left after_call cs E.

(** * Vocabulary of the properties *)

Import EllipticCurve.

(** What a call may do to the curve: the parameters stay, and [div] either
    stays or becomes a gcd with the modulus that is not 1. *)
Definition evolves (E E' : EllipticCurve.t) : Prop :=
  a E' = a E /\ b E' = b E /\ N E' = N E /\
  (div E' = div E \/ exists v, div E' = Z.gcd v (N E) /\ Z.gcd v (N E) <> 1).

(** [div] is 1 or a divisor of the modulus larger than 1. *)
Definition div_valid (E : EllipticCurve.t) : Prop :=
  div E = 1 \/ (1 < div E /\ (div E | N E) /\ N E mod div E = 0).

(** [safe m P]: run on a curve whose modulus is not zero, [m] raises
    nothing, yields a value satisfying [P], and leaves a curve the first
    one evolves to. *)
Definition safe {A} (m : M A) (P : A -> Prop) : Prop :=
  forall E, N E <> 0 ->
    exists v E', m E = (Ok v, E') /\ evolves E E' /\ P v.

(** The part of a string before its first occurrence of [c], and the part
    after it. *)
Fixpoint before (c : ascii) (s : string) : string :=
  match s with
  | EmptyString => EmptyString
  | String c' s' => if Ascii.eqb c' c then EmptyString
                    else String c' (before c s')
  end.

Fixpoint after (c : ascii) (s : string) : string :=
  match s with
  | EmptyString => EmptyString
  | String c' s' => if Ascii.eqb c' c then s' else after c s'
  end.

(** A point lies on the curve of [E] when the Weierstrass equation holds
    modulo [N]; the infinity sentinel always does. *)
Definition on_curve (E : EllipticCurve.t) (p : option Point.t) : Prop :=
  match p with
  | None => True
  | Some pp =>
      (Point.y pp * Point.y pp
       - (Point.x pp * Point.x pp * Point.x pp + a E * Point.x pp + b E))
      mod N E = 0
  end.

(** * Properties *)

(** ** [inverse] on a positive modulus *)

Lemma inverse_spec (u n v : Z) :
  0 < n -> inverse u n = Ok v -> 0 <= v < n /\ (u * v) mod n = 1 mod n.
Proof.
  intros Hn Hinv. unfold inverse in Hinv.
  destruct (n =? 0); [discriminate |].
  destruct (Z.gcd u n =? 1) eqn:Hg; [| discriminate].
  apply Z.eqb_eq in Hg. inversion Hinv; subst v; clear Hinv.
  rewrite Z.abs_eq by lia. rewrite Z.mod_invmod.
  split.
  - rewrite <- (Z.mod_invmod n u). apply Z.mod_pos_bound. exact Hn.
  - rewrite Z.mul_comm. now apply Z.invmod_coprime'.
Qed.

(** ** Curves along an execution *)

Lemma evolves_refl E : evolves E E.
Proof. unfold evolves; auto. Qed.

Lemma evolves_trans E1 E2 E3 :
  evolves E1 E2 -> evolves E2 E3 -> evolves E1 E3.
Proof.
  intros (Ha & Hb & HN & Hd) (Ha' & Hb' & HN' & Hd').
  unfold evolves. repeat split; try congruence.
  destruct Hd' as [Hd' | (v & Hv & Hne)].
  - destruct Hd as [Hd | Hd]; [left; congruence | right].
    destruct Hd as (v & Hv & Hne). exists v. split; congruence.
  - right. exists v. rewrite <- HN. auto.
Qed.

Lemma set_div_evolves E v :
  Z.gcd v (N E) <> 1 -> evolves E (set_div (Z.gcd v (N E)) E).
Proof. intros H. unfold evolves; simpl. repeat split; eauto. Qed.

Lemma gcd_modulus_gt_1 v n : 2 <= n -> Z.gcd v n <> 1 -> 1 < Z.gcd v n.
Proof.
  intros Hn Hne.
  pose proof (Z.gcd_nonneg v n) as Hpos.
  assert (Z.gcd v n <> 0) by (intros H0; apply Z.gcd_eq_0_r in H0; lia).
  lia.
Qed.

Lemma evolves_div_valid E E' :
  2 <= N E -> evolves E E' -> div_valid E -> div_valid E'.
Proof.
  intros HN (_ & _ & HN' & Hd) Hv. unfold div_valid in *.
  destruct Hd as [Hd | (v & Hd & Hne)].
  - rewrite Hd, HN'. exact Hv.
  - right. rewrite Hd, HN'.
    pose proof (gcd_modulus_gt_1 v (N E) HN Hne) as Hgt.
    pose proof (Z.gcd_divide_r v (N E)) as Hdiv.
    repeat split; auto.
    apply Z.mod_divide; [lia | exact Hdiv].
Qed.

Lemma evolves_stays_broken E E' :
  2 <= N E -> evolves E E' -> 1 < div E -> 1 < div E'.
Proof.
  intros HN (_ & _ & _ & Hd) Hgt.
  destruct Hd as [Hd | (v & Hd & Hne)]; [lia |].
  rewrite Hd. now apply gcd_modulus_gt_1.
Qed.

(** ** The three ways [sum] can end *)

Lemma sum_cases p q E :
  (exists r, sum_body p q E = (Ok r, E) /\ sum p q E = (Ok r, E)) \/
  (exists v, Z.gcd v (N E) <> 1 /\
             sum_body p q E = (Raise CannotAdd, set_div (Z.gcd v (N E)) E) /\
             sum p q E = (Ok None, set_div (Z.gcd v (N E)) E)) \/
  (N E = 0 /\ sum_body p q E = (Raise ValueError, E) /\
   sum p q E = (Raise ValueError, E)).
Proof.
  unfold sum, try_except, sum_body.
  destruct p as [pp|]; [| left; eexists; split; reflexivity].
  destruct q as [qq|]; [| left; eexists; split; reflexivity].
  unfold bind, get, assign_div, raise, lift, ret.
  destruct (Point.eq pp (Some qq)).
  - destruct (Z.gcd (2 * Point.y pp) (N E) =? 1) eqn:Hg; cbn [negb].
    + unfold inverse, pymod. rewrite Hg.
      destruct (N E =? 0) eqn:H0; cbn [exn_eqb].
      * right; right. split; [now apply Z.eqb_eq | split; reflexivity].
      * left; eexists; split; reflexivity.
    + right; left. exists (2 * Point.y pp). apply Z.eqb_neq in Hg. auto.
  - destruct (Z.gcd (Point.x qq - Point.x pp) (N E) =? 1) eqn:Hg; cbn [negb].
    + unfold inverse, pymod. rewrite Hg.
      destruct (N E =? 0) eqn:H0; cbn [exn_eqb].
      * right; right. split; [now apply Z.eqb_eq | split; reflexivity].
      * left; eexists; split; reflexivity.
    + right; left. exists (Point.x qq - Point.x pp). apply Z.eqb_neq in Hg. auto.
Qed.

Lemma sum_evolves p q E : evolves E (snd (sum p q E)).
Proof.
  destruct (sum_cases p q E) as [(r & _ & H) | [(v & Hne & _ & H) | (_ & _ & H)]];
    rewrite H; simpl; auto using evolves_refl, set_div_evolves.
Qed.

Lemma sum_returns p q E :
  N E <> 0 -> exists r, fst (sum p q E) = Ok r.
Proof.
  intros HN.
  destruct (sum_cases p q E) as [(r & _ & H) | [(v & Hne & _ & H) | (H0 & _)]];
    [rewrite H; simpl; eauto .. | contradiction].
Qed.

(** ** Calls on a curve with a non-zero modulus *)

Lemma safe_ret {A} (v : A) (P : A -> Prop) : P v -> safe (ret v) P.
Proof. intros Hv E _. exists v, E. auto using evolves_refl. Qed.

Lemma safe_bind {A B} (m : M A) (k : A -> M B) P Q :
  safe m P -> (forall v, P v -> safe (k v) Q) -> safe (bind m k) Q.
Proof.
  intros Hm Hk E HN.
  destruct (Hm E HN) as (v & E1 & Hrun & Hev & Hv).
  assert (HN1 : N E1 <> 0) by (destruct Hev as (_ & _ & -> & _); exact HN).
  destruct (Hk v Hv E1 HN1) as (w & E2 & Hrun2 & Hev2 & Hw).
  exists w, E2. unfold bind. rewrite Hrun.
  eauto using evolves_trans.
Qed.

Lemma safe_weaken {A} (m : M A) (P Q : A -> Prop) :
  safe m P -> (forall v, P v -> Q v) -> safe m Q.
Proof.
  intros Hm HPQ E HN. destruct (Hm E HN) as (v & E' & ? & ? & ?).
  exists v, E'. auto.
Qed.

Lemma safe_try_except {A} (body handler : M A) e P :
  safe body P -> safe (try_except body e handler) P.
Proof.
  intros Hm E HN. destruct (Hm E HN) as (v & E' & Hrun & ? & ?).
  exists v, E'. unfold try_except. rewrite Hrun. auto.
Qed.

Lemma safe_sum p q : safe (sum p q) (fun _ => True).
Proof.
  intros E HN.
  destruct (sum_cases p q E) as [(r & _ & H) | [(v & Hne & _ & H) | (H0 & _)]];
    [| | contradiction]; rewrite H; do 2 eexists;
    eauto using evolves_refl, set_div_evolves.
Qed.

Lemma safe_index_last {A} (l : list A) :
  l <> [] -> safe (index_last l) (fun _ => True).
Proof.
  intros Hl. unfold index_last.
  destruct (rev l) eqn:Hrev.
  - apply (f_equal (@rev A)) in Hrev. rewrite rev_involutive in Hrev.
    simpl in Hrev. contradiction.
  - now apply safe_ret.
Qed.

Lemma safe_index {A} (l : list A) i :
  (i < List.length l)%nat -> safe (index l i) (fun _ => True).
Proof.
  intros Hi. unfold index.
  destruct (nth_error l i) eqn:Hnth.
  - now apply safe_ret.
  - apply nth_error_None in Hnth. lia.
Qed.

Lemma safe_doublings n : forall l,
  l <> [] ->
  safe (doublings n l) (fun l' => List.length l' = (List.length l + n)%nat).
Proof.
  induction n as [| n IH]; intros l Hl; simpl.
  - apply safe_ret. lia.
  - eapply safe_bind; [now apply safe_index_last | intros p1 _].
    eapply safe_bind; [now apply safe_index_last | intros p2 _].
    eapply safe_bind; [apply safe_sum | intros new_point _].
    eapply safe_weaken.
    + apply IH. intros Habs. apply app_eq_nil in Habs. destruct Habs; discriminate.
    + intros l' Hlen. rewrite Hlen, List.length_app. simpl. lia.
Qed.

Lemma safe_accumulate powers : forall digits q,
  (forall i v, In (i, v) digits -> (i < List.length powers)%nat) ->
  safe (accumulate powers digits q) (fun _ => True).
Proof.
  induction digits as [| [i v] rest IH]; intros q Hidx; simpl.
  - now apply safe_ret.
  - assert (Hrest : forall j w, In (j, w) rest -> (j < List.length powers)%nat)
      by (intros j w Hin; apply (Hidx j w); now right).
    destruct (Ascii.eqb v "1"); [| now apply IH].
    eapply safe_bind; [apply safe_index, (Hidx i v); now left | intros pi _].
    eapply safe_bind; [apply safe_sum | intros q' _].
    now apply IH.
Qed.

Lemma enumerate_from_bound s : forall j i v,
  In (i, v) (enumerate_from j s) -> (j <= i < j + String.length s)%nat.
Proof.
  induction s as [| c s IH]; intros j i v Hin; simpl in *.
  - contradiction.
  - destruct Hin as [Heq | Hin].
    + inversion Heq; subst. lia.
    + apply IH in Hin. lia.
Qed.

Lemma safe_mult p k : safe (mult p k) (fun _ => True).
Proof.
  unfold mult. destruct (py_eq p None); [now apply safe_ret |].
  cbv zeta. apply safe_try_except.
  eapply safe_bind; [apply safe_doublings; discriminate | intros powers Hlen].
  apply safe_accumulate. intros i v Hin.
  apply enumerate_from_bound in Hin. cbn [List.length] in Hlen. lia.
Qed.

(** ** The loop of [Lenstra] *)

Lemma loop_pass_evolves point i E :
  N E <> 0 ->
  match loop_pass point i E with
  | Continue _ _ E' => evolves E E'
  | Break E' => evolves E E'
  | Uncaught _ _ => False
  end.
Proof.
  intros HN. unfold loop_pass.
  destruct (div E =? 1); [| apply evolves_refl].
  destruct (py_eq point None); [apply evolves_refl |].
  destruct (safe_mult point i E HN) as (v & E' & Hrun & Hev & _).
  now rewrite Hrun.
Qed.

Lemma while_loop_evolves fuel : forall point i E r E',
  N E <> 0 ->
  while_loop fuel point i E = Some (r, E') ->
  r = Ok tt /\ evolves E E'.
Proof.
  induction fuel as [| fuel IH]; intros point i E r E' HN Hrun; simpl in Hrun.
  - discriminate.
  - pose proof (loop_pass_evolves point i E HN) as Hpass.
    destruct (loop_pass point i E) as [point1 i1 E1 | E1 | e E1].
    + assert (HN1 : N E1 <> 0) by (destruct Hpass as (_ & _ & -> & _); exact HN).
      destruct (IH _ _ _ _ _ HN1 Hrun) as (Hr & Hev).
      eauto using evolves_trans.
    + inversion Hrun; subst. auto.
    + contradiction.
Qed.


(** ** Exceptions that a [try] statement stops *)

Lemma try_except_stops {A} (body handler : M A) e E :
  (forall E', fst (handler E') <> Raise e) ->
  fst (try_except body e handler E) <> Raise e.
Proof.
  intros Hh. unfold try_except.
  destruct (body E) as [[v | e'] E']; simpl; [discriminate |].
  destruct (exn_eqb e' e) eqn:Heq; [apply Hh |].
  simpl. intros Habs. inversion Habs; subst.
  destruct e; discriminate.
Qed.

Lemma sum_stops_CannotAdd p q E : fst (sum p q E) <> Raise CannotAdd.
Proof. apply try_except_stops. intros E'; discriminate. Qed.

Lemma mult_stops_CannotAdd p k E : fst (mult p k E) <> Raise CannotAdd.
Proof.
  unfold mult. destruct (py_eq p None); [discriminate |].
  apply try_except_stops. intros E'; discriminate.
Qed.

Lemma loop_pass_stops_CannotAdd point i E E' :
  loop_pass point i E <> Uncaught CannotAdd E'.
Proof.
  unfold loop_pass.
  destruct (div E =? 1); [| discriminate].
  destruct (py_eq point None); [discriminate |].
  destruct (mult point i E) as [[v | []] E1]; try discriminate.
Qed.

Lemma while_loop_stops_CannotAdd fuel : forall point i E E',
  while_loop fuel point i E <> Some (Raise CannotAdd, E').
Proof.
  induction fuel as [| fuel IH]; intros point i E E'; simpl; [discriminate |].
  pose proof (loop_pass_stops_CannotAdd point i E) as Hpass.
  destruct (loop_pass point i E) as [point1 i1 E1 | E1 | e E1].
  - apply IH.
  - discriminate.
  - intros Habs. inversion Habs; subst. now apply (Hpass E').
Qed.

Lemma Lenstra_from_stops_CannotAdd fuel point i E :
  Lenstra_from fuel point i E <> Some (Raise CannotAdd).
Proof.
  unfold Lenstra_from.
  pose proof (while_loop_stops_CannotAdd fuel point i E) as Hloop.
  destruct (while_loop fuel point i E) as [[[u | e] E'] |]; try discriminate.
  intros Habs. inversion Habs; subst. now apply (Hloop E').
Qed.

Lemma sum_body_CannotAdd p q E E' :
  sum_body p q E = (Raise CannotAdd, E') ->
  exists v, Z.gcd v (N E) <> 1 /\ E' = set_div (Z.gcd v (N E)) E.
Proof.
  destruct (sum_cases p q E) as [(r & H & _) | [(v & Hne & H & _) | (_ & H & _)]];
    rewrite H; intros Hraise; inversion Hraise; eauto.
Qed.

Lemma sum_turns_CannotAdd_into_None p q E E' :
  sum_body p q E = (Raise CannotAdd, E') ->
  sum p q E = (Ok None, E') /\ div E' <> 1.
Proof.
  intros Hraise. split.
  - unfold sum, try_except. rewrite Hraise. reflexivity.
  - destruct (sum_body_CannotAdd _ _ _ _ Hraise) as (v & Hne & ->). exact Hne.
Qed.

(** The body of [sum] does raise: doubling (1, 5) modulo 15. *)
Example sum_body_raises :
  sum_body (Some (Point.mk 1 5)) (Some (Point.mk 1 5)) (init 1 8 15)
  = (Raise CannotAdd, set_div 5 (init 1 8 15)).
Proof. reflexivity. Qed.

(** ** Sequences of calls *)

Lemma after_call_evolves E c : N E <> 0 -> evolves E (after_call E c).
Proof.
  intros HN. destruct c as [p q | p k]; simpl.
  - destruct (safe_sum p q E HN) as (v & E' & Hrun & Hev & _). now rewrite Hrun.
  - destruct (safe_mult p k E HN) as (v & E' & Hrun & Hev & _). now rewrite Hrun.
Qed.

Lemma after_calls_evolves cs : forall E,
  N E <> 0 -> evolves E (after_calls cs E).
Proof.
  unfold after_calls.
  induction cs as [| c cs IH]; intros E HN; simpl.
  - apply evolves_refl.
  - pose proof (after_call_evolves E c HN) as Hev.
    apply evolves_trans with (1 := Hev). apply IH.
    destruct Hev as (_ & _ & -> & _). exact HN.
Qed.

Lemma after_calls_app cs cs' E :
  after_calls (cs ++ cs') E = after_calls cs' (after_calls cs E).
Proof. unfold after_calls. apply fold_left_app. Qed.

(** ** A doubling whose denominator is not invertible *)

Lemma sum_doubling_fails E P :
  1 < Z.gcd (2 * Point.y P) (N E) ->
  sum (Some P) (Some P) E
    = (Ok None, set_div (Z.gcd (2 * Point.y P) (N E)) E).
Proof.
  intros Hgt.
  unfold sum, try_except, sum_body, bind, get, assign_div, raise, ret.
  unfold Point.eq. rewrite !Z.eqb_refl. cbn [andb].
  assert (Hg : (Z.gcd (2 * Point.y P) (N E) =? 1) = false)
    by (apply Z.eqb_neq; lia).
  rewrite Hg. reflexivity.
Qed.

(** ** Where [mult] departs from the product *)

(** The digits of [k] are read most significant first, while the list of
    doublings starts at [p]: for [k = 2] the only digit ["1"] selects [p]
    itself, and the doubling is computed but not used. *)
Lemma mult_two_returns_operand E P :
  N E <> 0 ->
  mult (Some P) 2 E = (Ok (Some P), snd (sum (Some P) (Some P) E)).
Proof.
  intros HN.
  destruct (safe_sum (Some P) (Some P) E HN) as (v & E' & Hrun & _ & _).
  unfold mult. cbn [py_eq Point.eq]. cbv zeta.
  change (slice_from 2 (bin 2)) with "10"%string.
  cbn [String.length Nat.sub doublings enumerate enumerate_from accumulate].
  unfold try_except, bind, index_last. cbn [rev app ret].
  rewrite Hrun. cbn [Ascii.eqb Bool.eqb index app nth_error ret snd].
  reflexivity.
Qed.

Lemma doubling_moves_point E P :
  2 <= N E ->
  Z.gcd (2 * Point.y P) (N E) = 1 ->
  exists P', sum (Some P) (Some P) E = (Ok (Some P'), E) /\ P' <> P.
Proof.
  intros HN Hg.
  unfold sum, try_except, sum_body, bind, get, lift, ret, inverse, pymod.
  unfold Point.eq. rewrite !Z.eqb_refl. cbn [andb].
  rewrite Hg. cbn [Z.eqb Pos.eqb negb].
  assert (H0 : (N E =? 0) = false) by (apply Z.eqb_neq; lia).
  rewrite H0. eexists. split; [reflexivity |].
  intros Heq.
  pose proof (f_equal Point.x Heq) as Hx.
  pose proof (f_equal Point.y Heq) as Hy.
  cbn [Point.x Point.y] in Hx, Hy.
  rewrite Hx, Z.sub_diag, Z.mul_0_r in Hy.
  assert (Hdiv : (N E | 2 * Point.y P)).
  { pose proof (Z.div_mod (0 - Point.y P) (N E) ltac:(lia)) as Hdm.
    rewrite Hy in Hdm.
    exists (- ((0 - Point.y P) / N E)). lia. }
  apply Z.divide_gcd_iff in Hdiv; [| lia].
  rewrite Z.gcd_comm in Hdiv. lia.
Qed.

(** So on every curve with modulus at least 2, doubling consistency fails
    for every finite point that can be doubled. *)
Lemma mult_two_never_doubles E P :
  2 <= N E ->
  Z.gcd (2 * Point.y P) (N E) = 1 ->
  fst (mult (Some P) 2 E) <> fst (sum (Some P) (Some P) E).
Proof.
  intros HN Hg.
  rewrite mult_two_returns_operand by lia.
  destruct (doubling_moves_point E P HN Hg) as (P' & Hsum & Hne).
  rewrite Hsum. cbn [fst]. intros Heq. inversion Heq. congruence.
Qed.

(** A doubling that fails leaves [None] in the list of doublings, and the
    second loop of [mult] goes on adding: with the digits ["11"] the result
    is the finite point [P] although [div] was set. *)
Lemma mult_three_after_failed_doubling E P :
  1 < Z.gcd (2 * Point.y P) (N E) ->
  mult (Some P) 3 E
    = (Ok (Some P), set_div (Z.gcd (2 * Point.y P) (N E)) E).
Proof.
  intros Hgt.
  pose proof (sum_doubling_fails E P Hgt) as Hrun.
  unfold mult. cbn [py_eq Point.eq]. cbv zeta.
  change (slice_from 2 (bin 3)) with "11"%string.
  cbn [String.length Nat.sub doublings enumerate enumerate_from accumulate].
  unfold try_except, bind, index_last. cbn [rev app ret].
  rewrite Hrun. reflexivity.
Qed.

(** ** The loop of [Lenstra] never runs dry

    A product by a positive [k] of a finite point is finite unless [div]
    was set: its first digit is ["1"] and selects the point itself, and
    from then on the accumulator is lost only by a failing addition. *)

Lemma bin_digits_head p : forall acc,
  exists s, bin_digits p acc = String "1"%char s.
Proof.
  induction p as [p IH | p IH |]; intros acc; simpl; eauto.
Qed.

Lemma sum_live p q E r E' :
  sum p q E = (Ok r, E') ->
  q <> None \/ div E <> 1 ->
  r <> None \/ div E' <> 1.
Proof.
  intros Hrun Hlive.
  destruct q as [qq |].
  - destruct (sum_cases p (Some qq) E)
      as [(r0 & Hbody & H) | [(v & Hne & _ & H) | (_ & _ & H)]];
      rewrite H in Hrun; inversion Hrun; subst; clear Hrun.
    + left. unfold sum_body in Hbody.
      destruct p as [pp |]; [| inversion Hbody; discriminate].
      unfold bind, get, assign_div, raise, lift, ret in Hbody.
      destruct (Point.eq pp (Some qq));
        match type of Hbody with
        | context [negb ?c] => destruct c
        end; cbn [negb] in Hbody; try discriminate;
        match type of Hbody with
        | context [inverse ?u ?n] => destruct (inverse u n)
        end; try discriminate;
        repeat match type of Hbody with
        | context [pymod ?u ?n] => destruct (pymod u n)
        end; try discriminate; inversion Hbody; discriminate.
    + right. exact Hne.
  - destruct Hlive as [Hq | Hd]; [contradiction |].
    assert (Hid : sum p None E = (Ok p, E)) by (destruct p; reflexivity).
    rewrite Hid in Hrun. inversion Hrun; subst. now right.
Qed.

Lemma accumulate_live powers : forall digits q E r E',
  accumulate powers digits q E = (Ok r, E') ->
  q <> None \/ div E <> 1 ->
  r <> None \/ div E' <> 1.
Proof.
  induction digits as [| [j v] rest IH]; intros q E r E' Hrun Hlive;
    simpl in Hrun.
  - inversion Hrun; subst. exact Hlive.
  - destruct (Ascii.eqb v "1"); [| now apply (IH _ _ _ _ Hrun)].
    unfold bind, index in Hrun.
    destruct (nth_error powers j) as [pj |]; [| discriminate].
    cbn [ret] in Hrun.
    destruct (sum pj q E) as [[q' | e] E1] eqn:Hsum; [| discriminate].
    apply (IH _ _ _ _ Hrun). now apply (sum_live _ _ _ _ _ Hsum).
Qed.

Lemma doublings_prefix n : forall l E l' E',
  doublings n l E = (Ok l', E') -> exists l2, l' = l ++ l2.
Proof.
  induction n as [| n IH]; intros l E l' E' Hrun; simpl in Hrun.
  - inversion Hrun; subst. exists []. now rewrite app_nil_r.
  - unfold bind in Hrun.
    destruct (index_last l E) as [[p1 | e] E1]; [| discriminate].
    destruct (index_last l E1) as [[p2 | e] E2]; [| discriminate].
    destruct (sum p1 p2 E2) as [[new_point | e] E3]; [| discriminate].
    destruct (IH _ _ _ _ Hrun) as (l2 & ->).
    exists (new_point :: l2). now rewrite <- app_assoc.
Qed.

Lemma mult_live P k E r E' :
  N E <> 0 -> 1 <= k ->
  mult (Some P) k E = (Ok r, E') ->
  r <> None \/ div E' <> 1.
Proof.
  intros HN Hk Hrun.
  destruct k as [| k | k]; try lia.
  unfold mult in Hrun. cbn [py_eq Point.eq] in Hrun. cbv zeta in Hrun.
  change (slice_from 2 (bin (Z.pos k))) with (bin_digits k "") in Hrun.
  destruct (bin_digits_head k "") as (s & Hs). rewrite Hs in Hrun.
  unfold try_except, bind in Hrun.
  set (m := (String.length (String "1"%char s) - 1)%nat) in Hrun.
  destruct (safe_doublings m [Some P] ltac:(discriminate) E HN)
    as (powers & E1 & Hd & Hev & Hlen).
  rewrite Hd in Hrun.
  destruct (doublings_prefix _ _ _ _ _ Hd) as (l2 & ->).
  cbn [enumerate enumerate_from accumulate Ascii.eqb Bool.eqb] in Hrun.
  unfold bind, index in Hrun. cbn [app nth_error ret] in Hrun.
  assert (Hid : sum (Some P) None E1 = (Ok (Some P), E1)) by reflexivity.
  rewrite Hid in Hrun.
  assert (HN1 : N E1 <> 0) by (destruct Hev as (_ & _ & -> & _); exact HN).
  destruct (safe_accumulate (Some P :: l2) (enumerate_from 1 s) (Some P))
    with (E := E1) as (v & E3 & Hok & _); [| exact HN1 |].
  - intros j c Hin. apply enumerate_from_bound in Hin.
    subst m. cbn [List.length String.length app] in Hlen |- *. lia.
  - rewrite Hok in Hrun. inversion Hrun; subst.
    apply (accumulate_live _ _ _ _ _ _ Hok). left; discriminate.
Qed.

(** What holds at every loop test of [Lenstra]. *)
Lemma loop_pass_live point i E :
  N E <> 0 -> 1 <= i -> point <> None \/ div E <> 1 ->
  match loop_pass point i E with
  | Continue point' i' E' =>
      N E' <> 0 /\ 1 <= i' /\ (point' <> None \/ div E' <> 1)
  | Break E' => div E' <> 1
  | Uncaught _ _ => False
  end.
Proof.
  intros HN Hi Hlive. unfold loop_pass.
  destruct (div E =? 1) eqn:Hdiv; [| now apply Z.eqb_neq].
  apply Z.eqb_eq in Hdiv.
  destruct point as [P |]; [| destruct Hlive; contradiction].
  cbn [py_eq Point.eq].
  destruct (safe_mult (Some P) i E HN) as (r & E' & Hrun & Hev & _).
  rewrite Hrun. repeat split.
  - destruct Hev as (_ & _ & -> & _). exact HN.
  - lia.
  - now apply (mult_live P i E r E').
Qed.

Lemma passes_live n : forall point i E point' i' E',
  N E <> 0 -> 1 <= i -> point <> None \/ div E <> 1 ->
  passes n point i E = Some (point', i', E') ->
  point' <> None \/ div E' <> 1.
Proof.
  induction n as [| n IH]; intros point i E point' i' E' HN Hi Hlive Hrun;
    simpl in Hrun.
  - inversion Hrun; subst. exact Hlive.
  - pose proof (loop_pass_live point i E HN Hi Hlive) as Hpass.
    destruct (loop_pass point i E) as [point1 i1 E1 | E1 | e E1];
      try discriminate.
    destruct Hpass as (HN1 & Hi1 & Hlive1).
    now apply (IH _ _ _ _ _ _ HN1 Hi1 Hlive1 Hrun).
Qed.

Lemma while_loop_live fuel : forall point i E r E',
  N E <> 0 -> 1 <= i -> point <> None \/ div E <> 1 ->
  while_loop fuel point i E = Some (r, E') ->
  div E' <> 1.
Proof.
  induction fuel as [| fuel IH]; intros point i E r E' HN Hi Hlive Hrun;
    simpl in Hrun; [discriminate |].
  pose proof (loop_pass_live point i E HN Hi Hlive) as Hpass.
  destruct (loop_pass point i E) as [point1 i1 E1 | E1 | e E1].
  - destruct Hpass as (HN1 & Hi1 & Hlive1).
    now apply (IH _ _ _ _ _ HN1 Hi1 Hlive1 Hrun).
  - inversion Hrun; subst. exact Hpass.
  - contradiction.
Qed.

(** More fuel does not change what the loop yields. *)
Lemma while_loop_more_fuel fuel : forall fuel' point i E out,
  (fuel <= fuel')%nat ->
  while_loop fuel point i E = Some out ->
  while_loop fuel' point i E = Some out.
Proof.
  induction fuel as [| fuel IH]; intros fuel' point i E out Hle Hrun;
    simpl in Hrun; [discriminate |].
  destruct fuel' as [| fuel']; [lia |]. simpl.
  destruct (loop_pass point i E) as [point1 i1 E1 | E1 | e E1]; auto.
  apply IH; [lia | exact Hrun].
Qed.

(** * The claims *)

(** C1, on the curve [y^2 = x^3 + x + 4] modulo 5 at its point (1, 1),
    whose doubling denominator 2 is invertible: [mult(P, 2)] returns [P],
    whereas [sum(P, P)] returns (2, 2). *)
Theorem mult_two_differs_from_sum :
  Z.gcd (2 * 1) 5 = 1 /\
  mult (Some (Point.mk 1 1)) 2 (init 1 4 5)
    = (Ok (Some (Point.mk 1 1)), init 1 4 5) /\
  sum (Some (Point.mk 1 1)) (Some (Point.mk 1 1)) (init 1 4 5)
    = (Ok (Some (Point.mk 2 2)), init 1 4 5).
Proof. repeat split. Qed.

(** C2, on the curve [y^2 = x^3 + x + 8] modulo 15 at its point (1, 5):
    the doubling inside [mult(P, 3)] fails and sets [div] to 5, and the
    call still returns the finite point [P]. *)
Theorem mult_returns_point_after_failure :
  div (init 1 8 15) = 1 /\
  sum (Some (Point.mk 1 5)) (Some (Point.mk 1 5)) (init 1 8 15)
    = (Ok None, set_div 5 (init 1 8 15)) /\
  mult (Some (Point.mk 1 5)) 3 (init 1 8 15)
    = (Ok (Some (Point.mk 1 5)), set_div 5 (init 1 8 15)).
Proof. repeat split. Qed.

(** C3: a curve built with modulus [N >= 2] starts with [div = 1]; after any
    sequence of [sum] and [mult] calls, a [div] other than 1 divides [N]
    exactly ([N mod div = 0]); and once [div] is greater than 1 no further
    calls bring it back to 1. *)
Theorem div_divides_modulus (a0 b0 N0 : Z) :
  2 <= N0 ->
  div (init a0 b0 N0) = 1 /\
  (forall cs, div (after_calls cs (init a0 b0 N0)) <> 1 ->
     (div (after_calls cs (init a0 b0 N0)) | N0) /\
     N0 mod div (after_calls cs (init a0 b0 N0)) = 0) /\
  (forall cs cs', 1 < div (after_calls cs (init a0 b0 N0)) ->
     div (after_calls (cs ++ cs') (init a0 b0 N0)) <> 1).
Proof.
  intros HN. split; [reflexivity |].
  assert (HN0 : N (init a0 b0 N0) <> 0) by (simpl; lia).
  assert (HN2 : 2 <= N (init a0 b0 N0)) by (simpl; lia).
  split.
  - intros cs Hne.
    pose proof (after_calls_evolves cs _ HN0) as Hev.
    assert (Hvalid : div_valid (after_calls cs (init a0 b0 N0))).
    { apply evolves_div_valid with (2 := Hev); [exact HN2 | now left]. }
    destruct Hev as (_ & _ & HNeq & _). simpl in HNeq.
    destruct Hvalid as [H1 | (_ & Hdiv & Hmod)]; [contradiction |].
    rewrite HNeq in Hdiv, Hmod. auto.
  - intros cs cs' Hgt. rewrite after_calls_app.
    pose proof (after_calls_evolves cs _ HN0) as Hev.
    assert (HNcs : N (after_calls cs (init a0 b0 N0)) = N0)
      by (destruct Hev as (_ & _ & -> & _); reflexivity).
    assert (Hbroken : 1 < div (after_calls cs' (after_calls cs (init a0 b0 N0)))).
    { apply evolves_stays_broken with (E := after_calls cs (init a0 b0 N0)).
      - lia.
      - apply after_calls_evolves. lia.
      - exact Hgt. }
    lia.
Qed.

(** A curve modulo 15 on which one doubling and one product were asked. *)
Lemma div_divides_modulus_witness :
  2 <= 15 /\
  div (init 1 8 15) = 1 /\
  (forall cs, div (after_calls cs (init 1 8 15)) <> 1 ->
     (div (after_calls cs (init 1 8 15)) | 15) /\
     15 mod div (after_calls cs (init 1 8 15)) = 0) /\
  (forall cs cs', 1 < div (after_calls cs (init 1 8 15)) ->
     div (after_calls (cs ++ cs') (init 1 8 15)) <> 1).
Proof. split; [lia | apply (div_divides_modulus 1 8 15); lia]. Defined.

(** C4: for [N >= 2] and any draws of [x0], [y0], [a] from [1..N], a run of
    [Lenstra(N)] that terminates returns an integer [d] with
    [1 <= d <= N] that divides [N] exactly. *)
Theorem Lenstra_returns_divisor (fuel : nat) (N0 x0 y0 a0 : Z) (r : result Z) :
  2 <= N0 -> 1 <= x0 <= N0 -> 1 <= y0 <= N0 -> 1 <= a0 <= N0 ->
  Lenstra fuel N0 x0 y0 a0 = Some r ->
  exists d, r = Ok d /\ 1 <= d <= N0 /\ (d | N0) /\ N0 mod d = 0.
Proof.
  intros HN Hx Hy Ha Hrun. unfold Lenstra, randint, pymod in Hrun.
  assert (HltF : (N0 <? 1) = false) by (apply Z.ltb_ge; lia).
  assert (H0F : (N0 =? 0) = false) by (apply Z.eqb_neq; lia).
  rewrite HltF, H0F in Hrun. unfold Lenstra_from in Hrun.
  set (E0 := init a0 ((y0 * y0 - x0 * x0 * x0 - a0 * x0) mod N0) N0) in Hrun.
  destruct (while_loop fuel (Some (Point.mk x0 y0)) 1 E0) as [[u E'] |] eqn:Hloop;
    [| discriminate].
  assert (HN0 : N E0 <> 0) by (simpl; lia).
  destruct (while_loop_evolves _ _ _ _ _ _ HN0 Hloop) as (-> & Hev).
  inversion Hrun; subst r. exists (div E'). split; [reflexivity |].
  assert (Hvalid : div_valid E').
  { apply evolves_div_valid with (2 := Hev); [simpl; lia | now left]. }
  destruct Hev as (_ & _ & HNeq & _). simpl in HNeq.
  destruct Hvalid as [H1 | (Hgt & Hdiv & Hmod)].
  - rewrite H1. repeat split; try lia.
    + apply Z.divide_1_l.
    + apply Z.mod_1_r.
  - rewrite HNeq in Hdiv, Hmod. repeat split; auto; try lia.
    apply Z.divide_pos_le; [lia | exact Hdiv].
Qed.

(** [Lenstra(15)] with draws 1, 5, 1 ends in three passes and returns 5. *)
Lemma Lenstra_returns_divisor_witness :
  Lenstra 3 15 1 5 1 = Some (Ok 5) /\
  exists d, Ok 5 = Ok d /\ 1 <= d <= 15 /\ (d | 15) /\ 15 mod d = 0.
Proof.
  split; [vm_compute; reflexivity |].
  apply (Lenstra_returns_divisor 3 15 1 5 1 (Ok 5)); try lia.
  vm_compute; reflexivity.
Defined.

(** C5: when the doubling denominator of a finite point [P] shares a
    non-trivial factor with the modulus ([gcd(2*P.y, N) > 1]), [sum(P, P)]
    returns the infinity sentinel and leaves [div] equal to that gcd. *)
Theorem sum_doubling_records_gcd (E : EllipticCurve.t) (P : Point.t) :
  1 < Z.gcd (2 * Point.y P) (N E) ->
  sum (Some P) (Some P) E
    = (Ok None, set_div (Z.gcd (2 * Point.y P) (N E)) E) /\
  div (snd (sum (Some P) (Some P) E)) = Z.gcd (2 * Point.y P) (N E).
Proof.
  intros Hgt.
  pose proof (sum_doubling_fails E P Hgt) as Hsum.
  split; [exact Hsum | rewrite Hsum; reflexivity].
Qed.

(** Doubling (1, 5) modulo 15: the denominator 10 shares the factor 5. *)
Lemma sum_doubling_records_gcd_witness :
  1 < Z.gcd (2 * 5) 15 /\
  sum (Some (Point.mk 1 5)) (Some (Point.mk 1 5)) (init 1 8 15)
    = (Ok None, set_div (Z.gcd (2 * 5) 15) (init 1 8 15)) /\
  div (snd (sum (Some (Point.mk 1 5)) (Some (Point.mk 1 5)) (init 1 8 15)))
    = Z.gcd (2 * 5) 15.
Proof.
  split; [vm_compute; reflexivity |].
  apply (sum_doubling_records_gcd (init 1 8 15) (Point.mk 1 5)).
  vm_compute; reflexivity.
Defined.

(** C6: for every point [P], finite or the infinity sentinel, and every
    curve, [sum(P, infinity)] and [sum(infinity, P)] both return [P] and
    leave the curve, [div] included, as it was. *)
Theorem sum_infinity_identity (E : EllipticCurve.t) (P : option Point.t) :
  sum P None E = (Ok P, E) /\ sum None P E = (Ok P, E).
Proof.
  split.
  - destruct P as [pp |]; reflexivity.
  - reflexivity.
Qed.



(** C8: for [N >= 2] and any draws from [1..N], no [CannotAdd] leaves
    [Lenstra]; every [CannotAdd] raised by the statements of [sum] is
    caught inside [sum], which then returns the infinity sentinel with
    [div] set, so neither [sum] nor [mult] ever ends with [CannotAdd]. *)
Theorem CannotAdd_never_escapes (fuel : nat) (N0 x0 y0 a0 : Z) :
  2 <= N0 -> 1 <= x0 <= N0 -> 1 <= y0 <= N0 -> 1 <= a0 <= N0 ->
  Lenstra fuel N0 x0 y0 a0 <> Some (Raise CannotAdd) /\
  (forall E p q, fst (sum p q E) <> Raise CannotAdd) /\
  (forall E p q E', sum_body p q E = (Raise CannotAdd, E') ->
                    sum p q E = (Ok None, E') /\ div E' <> 1) /\
  (forall E p k, fst (mult p k E) <> Raise CannotAdd).
Proof.
  intros HN Hx Hy Ha. split; [| split; [| split]].
  - unfold Lenstra, randint, pymod.
    destruct (N0 <? 1); [discriminate |].
    destruct (N0 =? 0); [discriminate |].
    apply Lenstra_from_stops_CannotAdd.
  - intros E p q. apply sum_stops_CannotAdd.
  - intros E p q E' Hraise. now apply sum_turns_CannotAdd_into_None.
  - intros E p k. apply mult_stops_CannotAdd.
Qed.

(** [Lenstra(15)] with draws 1, 5, 1, whose second product meets a doubling
    that raises inside [sum]. *)
Lemma CannotAdd_never_escapes_witness :
  (2 <= 15 /\ 1 <= 1 <= 15 /\ 1 <= 5 <= 15) /\
  Lenstra 3 15 1 5 1 <> Some (Raise CannotAdd) /\
  (forall E p q, fst (sum p q E) <> Raise CannotAdd) /\
  (forall E p q E', sum_body p q E = (Raise CannotAdd, E') ->
                    sum p q E = (Ok None, E') /\ div E' <> 1) /\
  (forall E p k, fst (mult p k E) <> Raise CannotAdd).
Proof.
  split; [lia |].
  apply (CannotAdd_never_escapes 3 15 1 5 1); lia.
Defined.

(** C9: for two distinct finite points with the same abscissa on a curve
    with modulus [N >= 2], [sum(p, q)] takes the failure path with
    [gcd(0, N) = N]: it sets [div] to [N] and returns the infinity
    sentinel. *)
Theorem sum_same_abscissa_records_N (E : EllipticCurve.t) (p q : Point.t) :
  2 <= N E ->
  Point.eq p (Some q) = false ->
  Point.x p = Point.x q ->
  Z.gcd 0 (N E) = N E /\
  sum (Some p) (Some q) E = (Ok None, set_div (N E) E).
Proof.
  intros HN Hneq Hx.
  assert (Hgcd : Z.gcd 0 (N E) = N E).
  { rewrite Z.gcd_0_l. apply Z.abs_eq. lia. }
  split; [exact Hgcd |].
  unfold sum, try_except, sum_body, bind, get, assign_div, raise, ret.
  rewrite Hneq, Hx, Z.sub_diag, Hgcd.
  assert (Hg : (N E =? 1) = false) by (apply Z.eqb_neq; lia).
  rewrite Hg. reflexivity.
Qed.

(** Adding (1, 2) and its opposite (1, 13) modulo 15. *)
Lemma sum_same_abscissa_records_N_witness :
  2 <= N (init 1 2 15) /\
  Point.eq (Point.mk 1 2) (Some (Point.mk 1 13)) = false /\
  Z.gcd 0 (N (init 1 2 15)) = N (init 1 2 15) /\
  sum (Some (Point.mk 1 2)) (Some (Point.mk 1 13)) (init 1 2 15)
    = (Ok None, set_div (N (init 1 2 15)) (init 1 2 15)).
Proof.
  split; [simpl; lia |]. split; [reflexivity |].
  apply (sum_same_abscissa_records_N (init 1 2 15) (Point.mk 1 2) (Point.mk 1 13)).
  - simpl; lia.
  - reflexivity.
  - reflexivity.
Defined.

(** C10: for every point [p], [mult(p, 0)] returns the infinity sentinel and
    leaves [div] as it was: the digits of 0 hold no ["1"], so the
    accumulator is returned as it started. *)
Theorem mult_zero_returns_infinity (E : EllipticCurve.t) (p : option Point.t) :
  slice_from 2 (bin 0) = "0"%string /\
  mult p 0 E = (Ok None, E).
Proof.
  split; [reflexivity |].
  destruct p as [pp |]; reflexivity.
Qed.

(** * Beyond the claims *)

(** For [N >= 2] and draws from [1..N], no loop test of [Lenstra(N)] finds
    the infinity sentinel while [div] is 1, and a run that terminates
    returns a divisor of [N] greater than 1. *)
Theorem Lenstra_never_returns_1 (fuel : nat) (N0 x0 y0 a0 : Z) :
  2 <= N0 -> 1 <= x0 <= N0 -> 1 <= y0 <= N0 -> 1 <= a0 <= N0 ->
  (forall n i E,
     passes n (Some (Point.mk x0 y0)) 1
       (init a0 ((y0 * y0 - x0 * x0 * x0 - a0 * x0) mod N0) N0)
     = Some (None, i, E) ->
     div E <> 1) /\
  (forall r, Lenstra fuel N0 x0 y0 a0 = Some r ->
     exists d, r = Ok d /\ 1 < d <= N0 /\ (d | N0)).
Proof.
  intros HN Hx Hy Ha.
  set (E0 := init a0 ((y0 * y0 - x0 * x0 * x0 - a0 * x0) mod N0) N0).
  assert (HN0 : N E0 <> 0) by (simpl; lia).
  assert (Hlive : Some (Point.mk x0 y0) <> None \/ div E0 <> 1)
    by (left; discriminate).
  split.
  - intros n i E Hpasses.
    destruct (passes_live n _ _ _ _ _ _ HN0 (Z.le_refl 1) Hlive Hpasses)
      as [Habs | Hdiv]; [contradiction | exact Hdiv].
  - intros r Hrun. unfold Lenstra, randint, pymod in Hrun.
    assert (HltF : (N0 <? 1) = false) by (apply Z.ltb_ge; lia).
    assert (H0F : (N0 =? 0) = false) by (apply Z.eqb_neq; lia).
    rewrite HltF, H0F in Hrun. unfold Lenstra_from in Hrun. fold E0 in Hrun.
    destruct (while_loop fuel (Some (Point.mk x0 y0)) 1 E0)
      as [[u E'] |] eqn:Hloop; [| discriminate].
    destruct (while_loop_evolves _ _ _ _ _ _ HN0 Hloop) as (-> & Hev).
    pose proof (while_loop_live _ _ _ _ _ _ HN0 (Z.le_refl 1) Hlive Hloop)
      as Hne.
    inversion Hrun; subst r. exists (div E'). split; [reflexivity |].
    assert (Hvalid : div_valid E').
    { apply evolves_div_valid with (2 := Hev); [simpl; lia | now left]. }
    destruct Hev as (_ & _ & HNeq & _). simpl in HNeq.
    destruct Hvalid as [H1 | (Hgt & Hdiv & _)]; [contradiction |].
    rewrite HNeq in Hdiv. repeat split; auto.
    apply Z.divide_pos_le; [lia | exact Hdiv].
Qed.

(** [Lenstra(455839)] with draws 1, 1, 5 returns the prime factor 761. *)
Lemma Lenstra_never_returns_1_witness :
  Lenstra 50 455839 1 1 5 = Some (Ok 761) /\
  exists d, Ok 761 = Ok d /\ 1 < d <= 455839 /\ (d | 455839).
Proof.
  split; [vm_compute; reflexivity |].
  apply (Lenstra_never_returns_1 50 455839 1 1 5); try lia.
  vm_compute; reflexivity.
Defined.

(** The product of the infinity sentinel by any [k] is the infinity
    sentinel, and the curve is left as it was. *)
Theorem mult_infinity_returns_infinity (E : EllipticCurve.t) (k : Z) :
  mult None k E = (Ok None, E).
Proof. unfold mult. cbn [py_eq]. reflexivity. Qed.

(** ** Congruences modulo the curve's modulus *)

Lemma mod_eq_divide n u v : u mod n = v mod n -> (n | u - v).
Proof.
  intros Heq. destruct (Z.eq_dec n 0) as [-> | Hn].
  - rewrite !Z.mod_0_r in Heq. subst. exists 0. ring.
  - exists (u / n - v / n).
    pose proof (Z.div_mod u n Hn) as Hu. pose proof (Z.div_mod v n Hn) as Hv.
    rewrite Heq in Hu. lia.
Qed.

Lemma divide_mod_eq n u v : (n | u - v) -> u mod n = v mod n.
Proof.
  intros (k & Hk). replace u with (v + k * n) by lia.
  destruct (Z.eq_dec n 0) as [-> | Hn].
  - rewrite !Z.mod_0_r. lia.
  - now apply Z.mod_add.
Qed.

Lemma mod_divide_self n u : (n | u - u mod n).
Proof. apply mod_eq_divide. now rewrite Zmod_mod. Qed.

Lemma mod_0_divide n u : u mod n = 0 <-> (n | u).
Proof.
  split.
  - intros H. pose proof (mod_divide_self n u) as Hd.
    rewrite H, Z.sub_0_r in Hd. exact Hd.
  - intros H. rewrite <- (Zmod_0_l n). apply divide_mod_eq.
    now rewrite Z.sub_0_r.
Qed.

(** What [inverse] returns is an inverse modulo [n], whatever the sign of
    [n]. *)
Lemma inverse_divide u n v : inverse u n = Ok v -> n <> 0 /\ (n | u * v - 1).
Proof.
  unfold inverse. intros Hinv.
  destruct (n =? 0) eqn:H0; [discriminate |]. apply Z.eqb_neq in H0.
  destruct (Z.gcd u n =? 1) eqn:Hg; [| discriminate]. apply Z.eqb_eq in Hg.
  inversion Hinv; subst v; clear Hinv. split; [exact H0 |].
  set (w := Z.invmod u (Z.abs n)).
  assert (Hw : (n | w * u - 1)).
  { apply Z.divide_abs_l. apply mod_eq_divide.
    apply Z.invmod_coprime'. unfold Z.coprime. now rewrite Z.gcd_abs_r. }
  replace (u * (w mod n) - 1) with ((w * u - 1) - u * (w - w mod n)) by ring.
  apply Z.divide_sub_r; [exact Hw |].
  apply Z.divide_mul_r. apply mod_divide_self.
Qed.

Lemma inverse_returns u n :
  n <> 0 -> Z.gcd u n = 1 -> exists v, inverse u n = Ok v.
Proof.
  intros Hn Hg. unfold inverse.
  apply Z.eqb_neq in Hn. apply Z.eqb_eq in Hg. rewrite Hn, Hg. eauto.
Qed.

Lemma inverse_gcd u n v : inverse u n = Ok v -> Z.gcd u n = 1.
Proof.
  unfold inverse. destruct (n =? 0); [discriminate |].
  destruct (Z.gcd u n =? 1) eqn:Hg; [| discriminate].
  intros _. now apply Z.eqb_eq.
Qed.

(** ** [Point.__eq__] *)

Lemma Point_eq_true p q : Point.eq p (Some q) = true <-> p = q.
Proof.
  unfold Point.eq. rewrite andb_true_iff, !Z.eqb_eq.
  destruct p as [px py], q as [qx qy]; simpl. split.
  - intros (-> & ->). reflexivity.
  - intros Heq. inversion Heq. auto.
Qed.

(** ** The point [sum] computes *)

Lemma sum_doubling_value E P inv :
  inverse (2 * Point.y P) (N E) = Ok inv ->
  sum (Some P) (Some P) E
  = (Ok (Some
       (Point.mk
          (((3 * Point.x P * Point.x P + a E) * inv
            * ((3 * Point.x P * Point.x P + a E) * inv) - 2 * Point.x P)
           mod N E)
          (((3 * Point.x P * Point.x P + a E) * inv
            * (Point.x P
               - ((3 * Point.x P * Point.x P + a E) * inv
                  * ((3 * Point.x P * Point.x P + a E) * inv)
                  - 2 * Point.x P) mod N E)
            - Point.y P) mod N E))), E).
Proof.
  intros Hinv.
  pose proof (inverse_gcd _ _ _ Hinv) as Hg.
  destruct (inverse_divide _ _ _ Hinv) as (HN & _).
  unfold sum, try_except, sum_body, bind, get, lift, ret.
  rewrite (proj2 (Point_eq_true P P) eq_refl).
  apply Z.eqb_eq in Hg. rewrite Hg. cbn [negb]. rewrite Hinv.
  unfold pymod. apply Z.eqb_neq in HN. rewrite HN. reflexivity.
Qed.

Lemma sum_addition_value E p q inv :
  Point.eq p (Some q) = false ->
  inverse (Point.x q - Point.x p) (N E) = Ok inv ->
  sum (Some p) (Some q) E
  = (Ok (Some
       (Point.mk
          (((Point.y q - Point.y p) * inv * ((Point.y q - Point.y p) * inv)
            - Point.x p - Point.x q) mod N E)
          (((Point.y q - Point.y p) * inv
            * (Point.x p
               - ((Point.y q - Point.y p) * inv
                  * ((Point.y q - Point.y p) * inv)
                  - Point.x p - Point.x q) mod N E)
            - Point.y p) mod N E))), E).
Proof.
  intros Hneq Hinv.
  pose proof (inverse_gcd _ _ _ Hinv) as Hg.
  destruct (inverse_divide _ _ _ Hinv) as (HN & _).
  unfold sum, try_except, sum_body, bind, get, lift, ret.
  rewrite Hneq.
  apply Z.eqb_eq in Hg. rewrite Hg. cbn [negb]. rewrite Hinv.
  unfold pymod. apply Z.eqb_neq in HN. rewrite HN. reflexivity.
Qed.

Lemma sum_addition_fails E p q :
  Point.eq p (Some q) = false ->
  Z.gcd (Point.x q - Point.x p) (N E) <> 1 ->
  sum (Some p) (Some q) E
  = (Ok None, set_div (Z.gcd (Point.x q - Point.x p) (N E)) E).
Proof.
  intros Hneq Hg.
  unfold sum, try_except, sum_body, bind, get, assign_div, raise, ret.
  rewrite Hneq. apply Z.eqb_neq in Hg. rewrite Hg. reflexivity.
Qed.

Lemma sum_doubling_fails_ne E P :
  Z.gcd (2 * Point.y P) (N E) <> 1 ->
  sum (Some P) (Some P) E
  = (Ok None, set_div (Z.gcd (2 * Point.y P) (N E)) E).
Proof.
  intros Hg.
  unfold sum, try_except, sum_body, bind, get, assign_div, raise, ret.
  rewrite (proj2 (Point_eq_true P P) eq_refl).
  apply Z.eqb_neq in Hg. rewrite Hg. reflexivity.
Qed.

(** ** The chord-and-tangent construction stays on the curve

    With [f(X) = X^3 + a X + b - (s (X - x) + y)^2], the line of slope [s]
    through a point of the curve meets the curve where [f] vanishes; the
    third root is the abscissa [sum] computes. *)

Lemma tangent_on_curve n ca cb x y i x3 y3 :
  (n | y * y - (x * x * x + ca * x + cb)) ->
  (n | 2 * y * i - 1) ->
  (n | ((3 * x * x + ca) * i * ((3 * x * x + ca) * i) - 2 * x) - x3) ->
  (n | ((3 * x * x + ca) * i * (x - x3) - y) - y3) ->
  (n | y3 * y3 - (x3 * x3 * x3 + ca * x3 + cb)).
Proof.
  intros H1 H2 Hx Hy.
  set (s := (3 * x * x + ca) * i) in *.
  set (t := s * (x - x3) - y) in *.
  replace (y3 * y3 - (x3 * x3 * x3 + ca * x3 + cb))
    with ((y * y - (x * x * x + ca * x + cb))
          + (2 * y * i - 1) * ((3 * x * x + ca) * (x3 - x))
          + ((s * s - 2 * x) - x3) * ((x3 - x) * (x3 - x))
          - (t - y3) * (t + y3))
    by (unfold t, s; ring).
  apply Z.divide_sub_r; [| now apply Z.divide_mul_l].
  apply Z.divide_add_r; [| now apply Z.divide_mul_l].
  apply Z.divide_add_r; [exact H1 | now apply Z.divide_mul_l].
Qed.

Lemma chord_on_curve n ca cb xp yp xq yq i x3 y3 :
  (n | yp * yp - (xp * xp * xp + ca * xp + cb)) ->
  (n | yq * yq - (xq * xq * xq + ca * xq + cb)) ->
  (n | (xq - xp) * i - 1) ->
  (n | ((yq - yp) * i * ((yq - yp) * i) - xp - xq) - x3) ->
  (n | ((yq - yp) * i * (xp - x3) - yp) - y3) ->
  (n | y3 * y3 - (x3 * x3 * x3 + ca * x3 + cb)).
Proof.
  intros HP HQ Hi Hx Hy.
  set (s := (yq - yp) * i) in *.
  set (t := s * (xp - x3) - yp) in *.
  set (fp := xp * xp * xp + ca * xp + cb - yp * yp).
  set (u := s * (xq - xp) + yp).
  set (fq := xq * xq * xq + ca * xq + cb - u * u).
  set (al := ca - 2 * s * (yp - s * xp)
             - (xp * xq + (xp + xq) * (s * s - xp - xq))).
  assert (Hfp : (n | fp)).
  { replace fp with (- (yp * yp - (xp * xp * xp + ca * xp + cb)))
      by (unfold fp; ring).
    now apply Z.divide_opp_r. }
  assert (Hfq : (n | fq)).
  { replace fq
      with (- (yq * yq - (xq * xq * xq + ca * xq + cb))
            - ((xq - xp) * i - 1) * ((yq - yp) * (yq + u)))
      by (unfold fq, u, s; ring).
    apply Z.divide_sub_r; [now apply Z.divide_opp_r |].
    now apply Z.divide_mul_l. }
  assert (Hal : (n | al)).
  { replace al with ((fq - fp) * i - ((xq - xp) * i - 1) * al)
      by (unfold al, fq, fp, u; ring).
    apply Z.divide_sub_r; [| now apply Z.divide_mul_l].
    apply Z.divide_mul_l. now apply Z.divide_sub_r. }
  replace (y3 * y3 - (x3 * x3 * x3 + ca * x3 + cb))
    with (((s * s - xp - xq) - x3) * ((x3 - xp) * (x3 - xq))
          - al * (x3 - xp) - fp - (t - y3) * (t + y3))
    by (unfold al, fp, t; ring).
  apply Z.divide_sub_r; [| now apply Z.divide_mul_l].
  apply Z.divide_sub_r; [| exact Hfp].
  apply Z.divide_sub_r; now apply Z.divide_mul_l.
Qed.

Lemma on_curve_evolves E E' p : evolves E E' -> on_curve E p -> on_curve E' p.
Proof.
  intros (Ha & Hb & HN & _). destruct p as [pp |]; simpl; [| trivial].
  now rewrite Ha, Hb, HN.
Qed.

Lemma sum_keeps_on_curve p q :
  forall E, N E <> 0 -> on_curve E p -> on_curve E q ->
  exists r E', sum p q E = (Ok r, E') /\ evolves E E' /\ on_curve E r.
Proof.
  intros E HN Hp Hq.
  destruct p as [pp |]; [| exists q, E; auto using evolves_refl].
  destruct q as [qq |];
    [| exists (Some pp), E; auto using evolves_refl].
  simpl in Hp, Hq. apply mod_0_divide in Hp, Hq.
  destruct (Point.eq pp (Some qq)) eqn:Heq.
  - apply Point_eq_true in Heq. subst qq.
    destruct (Z.eq_dec (Z.gcd (2 * Point.y pp) (N E)) 1) as [Hg | Hg].
    + destruct (inverse_returns _ _ HN Hg) as (inv & Hinv).
      rewrite (sum_doubling_value E pp inv Hinv).
      do 2 eexists. split; [reflexivity |]. split; [apply evolves_refl |].
      simpl. apply mod_0_divide.
      destruct (inverse_divide _ _ _ Hinv) as (_ & Hi).
      apply (tangent_on_curve (N E) (a E) (b E)
               (Point.x pp) (Point.y pp) inv); auto using mod_divide_self.
    + rewrite (sum_doubling_fails_ne E pp Hg).
      do 2 eexists. split; [reflexivity |].
      split; [now apply set_div_evolves | exact I].
  - destruct (Z.eq_dec (Z.gcd (Point.x qq - Point.x pp) (N E)) 1) as [Hg | Hg].
    + destruct (inverse_returns _ _ HN Hg) as (inv & Hinv).
      rewrite (sum_addition_value E pp qq inv Heq Hinv).
      do 2 eexists. split; [reflexivity |]. split; [apply evolves_refl |].
      simpl. apply mod_0_divide.
      destruct (inverse_divide _ _ _ Hinv) as (_ & Hi).
      apply (chord_on_curve (N E) (a E) (b E)
               (Point.x pp) (Point.y pp) (Point.x qq) (Point.y qq) inv);
        auto using mod_divide_self.
    + rewrite (sum_addition_fails E pp qq Heq Hg).
      do 2 eexists. split; [reflexivity |].
      split; [now apply set_div_evolves | exact I].
Qed.

Lemma on_curve_evolves_back E E' p :
  evolves E E' -> on_curve E' p -> on_curve E p.
Proof.
  intros (Ha & Hb & HN & _). destruct p as [pp |]; simpl; [| trivial].
  now rewrite Ha, Hb, HN.
Qed.

Lemma evolves_modulus E E' : evolves E E' -> N E <> 0 -> N E' <> 0.
Proof. intros (_ & _ & -> & _). trivial. Qed.

Lemma index_last_member {A} (l : list A) E :
  l <> [] -> exists v, index_last l E = (Ok v, E) /\ In v l.
Proof.
  intros Hl. unfold index_last.
  destruct (rev l) as [| v tl] eqn:Hrev.
  - apply (f_equal (@rev A)) in Hrev. rewrite rev_involutive in Hrev.
    simpl in Hrev. contradiction.
  - exists v. split; [reflexivity |].
    apply in_rev. rewrite Hrev. now left.
Qed.

Lemma doublings_keep_on_curve n : forall l E,
  N E <> 0 -> l <> [] -> Forall (on_curve E) l ->
  exists l' E',
    doublings n l E = (Ok l', E') /\ evolves E E' /\
    Forall (on_curve E) l' /\ List.length l' = (List.length l + n)%nat.
Proof.
  induction n as [| n IH]; intros l E HN Hl Hall; simpl.
  - exists l, E.
    split; [reflexivity |]. split; [apply evolves_refl |].
    split; [exact Hall | lia].
  - destruct (index_last_member l E Hl) as (v & Hlast & Hin).
    unfold bind. rewrite Hlast, Hlast.
    assert (Hv : on_curve E v) by (rewrite Forall_forall in Hall; auto).
    destruct (sum_keeps_on_curve v v E HN Hv Hv) as (r & E1 & Hsum & Hev & Hr).
    rewrite Hsum.
    destruct (IH (l ++ [r]) E1) as (l' & E2 & Hrun & Hev2 & Hall2 & Hlen).
    + now apply (evolves_modulus E).
    + intros Habs. apply app_eq_nil in Habs. destruct Habs; discriminate.
    + apply Forall_app. split.
      * apply Forall_impl with (2 := Hall). intros p.
        now apply on_curve_evolves.
      * constructor; [now apply (on_curve_evolves E) | constructor].
    + exists l', E2.
      split; [exact Hrun |]. split; [now apply evolves_trans with E1 |].
      split.
      * apply Forall_impl with (2 := Hall2). intros p.
        now apply on_curve_evolves_back.
      * rewrite Hlen, List.length_app. simpl. lia.
Qed.

Lemma accumulate_keeps_on_curve powers : forall digits q E,
  N E <> 0 -> Forall (on_curve E) powers ->
  (forall i v, In (i, v) digits -> (i < List.length powers)%nat) ->
  on_curve E q ->
  exists r E',
    accumulate powers digits q E = (Ok r, E') /\ evolves E E' /\
    on_curve E r.
Proof.
  induction digits as [| [j v] rest IH]; intros q E HN Hall Hidx Hq; simpl.
  - exists q, E. auto using evolves_refl.
  - assert (Hrest : forall i w, In (i, w) rest -> (i < List.length powers)%nat)
      by (intros i w Hin; apply (Hidx i w); now right).
    destruct (Ascii.eqb v "1"); [| now apply IH].
    unfold bind, index.
    destruct (nth_error powers j) as [pj |] eqn:Hnth.
    + cbn [ret].
      assert (Hpj : on_curve E pj).
      { rewrite Forall_forall in Hall. apply Hall.
        now apply nth_error_In with (n := j). }
      destruct (sum_keeps_on_curve pj q E HN Hpj Hq)
        as (r & E1 & Hsum & Hev & Hr).
      rewrite Hsum.
      destruct (IH r E1) as (r' & E2 & Hrun & Hev2 & Hr'); auto.
      * now apply (evolves_modulus E).
      * apply Forall_impl with (2 := Hall). intros p.
        now apply on_curve_evolves.
      * now apply (on_curve_evolves E).
      * exists r', E2.
        split; [exact Hrun |]. split; [now apply evolves_trans with E1 |].
        now apply (on_curve_evolves_back E E1).
    + apply nth_error_None in Hnth.
      specialize (Hidx j v (or_introl eq_refl)). lia.
Qed.

Lemma mult_keeps_on_curve p k E :
  N E <> 0 -> on_curve E p ->
  exists r E', mult p k E = (Ok r, E') /\ evolves E E' /\ on_curve E r.
Proof.
  intros HN Hp. unfold mult.
  destruct (py_eq p None); [exists None, E; simpl; auto using evolves_refl |].
  cbv zeta. unfold try_except, bind.
  set (digits := slice_from 2 (bin k)).
  destruct (doublings_keep_on_curve (String.length digits - 1) [p] E HN)
    as (powers & E1 & Hd & Hev & Hall & Hlen);
    [discriminate | now constructor |].
  rewrite Hd.
  destruct (accumulate_keeps_on_curve powers (enumerate digits) None E1)
    as (r & E2 & Hacc & Hev2 & Hr).
  - now apply (evolves_modulus E).
  - apply Forall_impl with (2 := Hall). intros q. now apply on_curve_evolves.
  - intros i v Hin. apply enumerate_from_bound in Hin.
    cbn [List.length] in Hlen. lia.
  - exact I.
  - rewrite Hacc. exists r, E2.
    split; [reflexivity |]. split; [now apply evolves_trans with E1 |].
    now apply (on_curve_evolves_back E E1).
Qed.

Lemma loop_pass_on_curve point i E :
  N E <> 0 -> on_curve E point ->
  match loop_pass point i E with
  | Continue point' i' E' =>
      evolves E E' /\ on_curve E point' /\ i' = i + 1
  | Break E' => evolves E E'
  | Uncaught _ _ => False
  end.
Proof.
  intros HN Hp. unfold loop_pass.
  destruct (div E =? 1); [| apply evolves_refl].
  destruct (py_eq point None); [apply evolves_refl |].
  destruct (mult_keeps_on_curve point i E HN Hp) as (r & E' & Hrun & Hev & Hr).
  rewrite Hrun. auto.
Qed.

Lemma passes_on_curve n : forall point i E point' i' E',
  N E <> 0 -> on_curve E point ->
  passes n point i E = Some (point', i', E') ->
  evolves E E' /\ on_curve E point' /\ i' = i + Z.of_nat n.
Proof.
  induction n as [| n IH]; intros point i E point' i' E' HN Hp Hrun;
    simpl in Hrun.
  - inversion Hrun; subst. split; [apply evolves_refl |]. split; [easy | lia].
  - pose proof (loop_pass_on_curve point i E HN Hp) as Hpass.
    destruct (loop_pass point i E) as [point1 i1 E1 | E1 | e E1];
      try discriminate.
    destruct Hpass as (Hev & Hp1 & ->).
    destruct (IH _ _ _ _ _ _ (evolves_modulus _ _ Hev HN)
                (on_curve_evolves _ _ _ Hev Hp1) Hrun) as (Hev' & Hp' & ->).
    split; [now apply evolves_trans with E1 |].
    split; [now apply (on_curve_evolves_back E E1) | lia].
Qed.

(** ** [sum] does not depend on the order of its operands *)

Lemma Point_eq_sym p q : Point.eq p (Some q) = Point.eq q (Some p).
Proof.
  unfold Point.eq.
  now rewrite (Z.eqb_sym (Point.x p)), (Z.eqb_sym (Point.y p)).
Qed.

Lemma sum_addition_modulus_0 E p q :
  Point.eq p (Some q) = false ->
  Z.gcd (Point.x q - Point.x p) (N E) = 1 -> N E = 0 ->
  sum (Some p) (Some q) E = (Raise ValueError, E).
Proof.
  intros Hneq Hg H0.
  unfold sum, try_except, sum_body, bind, get, lift, ret, inverse.
  rewrite Hneq. apply Z.eqb_eq in Hg, H0. rewrite Hg, H0. reflexivity.
Qed.

Lemma slopes_congruent n xp yp xq yq i i' :
  (n | (xq - xp) * i - 1) -> (n | (xp - xq) * i' - 1) ->
  (n | (yq - yp) * i - (yp - yq) * i').
Proof.
  intros Hi Hi'.
  replace ((yq - yp) * i - (yp - yq) * i')
    with (- (((xq - xp) * i - 1) * ((yq - yp) * i')
             + ((xp - xq) * i' - 1) * ((yq - yp) * i)))
    by ring.
  apply Z.divide_opp_r.
  apply Z.divide_add_r; now apply Z.divide_mul_l.
Qed.

(** [sum(p, q)] and [sum(q, p)] return the same point, raise the same
    exception and leave the same curve, for all operands and every
    modulus: the two slopes are congruent modulo [N], and the gcd tested
    does not depend on the sign of the difference of abscissas. *)
Theorem sum_commutes (E : EllipticCurve.t) (p q : option Point.t) :
  sum p q E = sum q p E.
Proof.
  destruct p as [pp |], q as [qq |]; try reflexivity.
  destruct (Point.eq pp (Some qq)) eqn:Heq.
  - apply Point_eq_true in Heq. now subst.
  - assert (Heq' : Point.eq qq (Some pp) = false)
      by (now rewrite Point_eq_sym).
    assert (Hgcd : Z.gcd (Point.x pp - Point.x qq) (N E)
                   = Z.gcd (Point.x qq - Point.x pp) (N E)).
    { rewrite <- (Z.gcd_opp_l (Point.x qq - Point.x pp)). f_equal. ring. }
    destruct (Z.eq_dec (Z.gcd (Point.x qq - Point.x pp) (N E)) 1) as [Hg | Hg].
    + destruct (Z.eq_dec (N E) 0) as [H0 | HN].
      * rewrite (sum_addition_modulus_0 E pp qq Heq Hg H0).
        rewrite (sum_addition_modulus_0 E qq pp Heq'); congruence.
      * destruct (inverse_returns _ _ HN Hg) as (i & Hinv).
        assert (Hg' : Z.gcd (Point.x pp - Point.x qq) (N E) = 1) by congruence.
        destruct (inverse_returns _ _ HN Hg') as (i' & Hinv').
        rewrite (sum_addition_value E pp qq i Heq Hinv).
        rewrite (sum_addition_value E qq pp i' Heq' Hinv').
        destruct (inverse_divide _ _ _ Hinv) as (_ & Hi).
        destruct (inverse_divide _ _ _ Hinv') as (_ & Hi').
        pose proof (slopes_congruent (N E) (Point.x pp) (Point.y pp)
                      (Point.x qq) (Point.y qq) i i' Hi Hi') as Hs.
        set (s := (Point.y qq - Point.y pp) * i) in *.
        set (s' := (Point.y pp - Point.y qq) * i') in *.
        assert (Hx : (s * s - Point.x pp - Point.x qq) mod N E
                     = (s' * s' - Point.x qq - Point.x pp) mod N E).
        { apply divide_mod_eq.
          replace (s * s - Point.x pp - Point.x qq
                   - (s' * s' - Point.x qq - Point.x pp))
            with ((s - s') * (s + s')) by ring.
          now apply Z.divide_mul_l. }
        rewrite <- Hx.
        set (x3 := (s * s - Point.x pp - Point.x qq) mod N E).
        assert (Hy : (s * (Point.x pp - x3) - Point.y pp) mod N E
                     = (s' * (Point.x qq - x3) - Point.y qq) mod N E).
        { apply divide_mod_eq.
          replace (s * (Point.x pp - x3) - Point.y pp
                   - (s' * (Point.x qq - x3) - Point.y qq))
            with ((s - s') * (Point.x qq - x3)
                  - ((Point.x qq - Point.x pp) * i - 1)
                    * (Point.y qq - Point.y pp))
            by (unfold s; ring).
          apply Z.divide_sub_r; now apply Z.divide_mul_l. }
        now rewrite Hy.
    + rewrite (sum_addition_fails E pp qq Heq Hg).
      rewrite (sum_addition_fails E qq pp Heq'); [| congruence].
      now rewrite Hgcd.
Qed.

(** ** What a run of [Lenstra] ends with *)

Lemma Lenstra_outcome fuel N0 x0 y0 a0 r :
  1 <= N0 ->
  Lenstra fuel N0 x0 y0 a0 = Some r ->
  exists E',
    r = Ok (div E') /\ div E' <> 1 /\
    evolves (init a0 ((y0 * y0 - x0 * x0 * x0 - a0 * x0) mod N0) N0) E'.
Proof.
  intros HN Hrun. unfold Lenstra, randint, pymod in Hrun.
  assert (HltF : (N0 <? 1) = false) by (apply Z.ltb_ge; lia).
  assert (H0F : (N0 =? 0) = false) by (apply Z.eqb_neq; lia).
  rewrite HltF, H0F in Hrun. unfold Lenstra_from in Hrun.
  set (E0 := init a0 ((y0 * y0 - x0 * x0 * x0 - a0 * x0) mod N0) N0) in *.
  assert (HN0 : N E0 <> 0) by (simpl; lia).
  assert (Hlive : Some (Point.mk x0 y0) <> None \/ div E0 <> 1)
    by (left; discriminate).
  destruct (while_loop fuel (Some (Point.mk x0 y0)) 1 E0)
    as [[u E'] |] eqn:Hloop; [| discriminate].
  destruct (while_loop_evolves _ _ _ _ _ _ HN0 Hloop) as (-> & Hev).
  pose proof (while_loop_live _ _ _ _ _ _ HN0 (Z.le_refl 1) Hlive Hloop) as Hne.
  inversion Hrun; subst r. exists E'. auto.
Qed.

(** The first two passes of the loop: the product by 1 is the point, and
    the product by 2 is the point again, after a doubling that is
    computed and dropped. *)
Lemma mult_one_returns_operand E P :
  mult (Some P) 1 E = (Ok (Some P), E).
Proof. reflexivity. Qed.

Lemma Lenstra_second_pass_fails fuel N0 x0 y0 a0 :
  1 <= N0 ->
  Z.gcd (2 * y0) N0 <> 1 ->
  Lenstra (3 + fuel) N0 x0 y0 a0 = Some (Ok (Z.gcd (2 * y0) N0)).
Proof.
  intros HN Hg. unfold Lenstra, randint, pymod.
  assert (HltF : (N0 <? 1) = false) by (apply Z.ltb_ge; lia).
  assert (H0F : (N0 =? 0) = false) by (apply Z.eqb_neq; lia).
  rewrite HltF, H0F. unfold Lenstra_from.
  set (E0 := init a0 ((y0 * y0 - x0 * x0 * x0 - a0 * x0) mod N0) N0).
  set (P := Point.mk x0 y0).
  assert (HN0 : N E0 <> 0) by (simpl; lia).
  assert (Hg' : Z.gcd (2 * Point.y P) (N E0) <> 1) by exact Hg.
  assert (Hloop : while_loop (3 + fuel) (Some P) 1 E0
                  = Some (Ok tt, set_div (Z.gcd (2 * y0) N0) E0)).
  { change (3 + fuel)%nat with (S (S (S fuel))).
    cbn [while_loop]. unfold loop_pass at 1.
    change (div E0 =? 1) with true. cbn [py_eq Point.eq].
    rewrite mult_one_returns_operand. change (1 + 1) with 2.
    unfold loop_pass at 1.
    change (div E0 =? 1) with true. cbn [py_eq Point.eq].
    rewrite (mult_two_returns_operand E0 P HN0).
    rewrite (sum_doubling_fails_ne E0 P Hg'). cbn [snd].
    unfold loop_pass. cbn [div set_div].
    apply Z.eqb_neq in Hg. change (N E0) with N0. change (Point.y P) with y0.
    rewrite Hg. reflexivity. }
  rewrite Hloop. reflexivity.
Qed.

(** ** Products by a power of two *)

Lemma pow2_positive j : 2 ^ Z.of_nat j = Z.pos (Nat.iter j xO xH).
Proof.
  induction j as [| j IH].
  - reflexivity.
  - rewrite Nat2Z.inj_succ, Z.pow_succ_r by lia. rewrite IH. reflexivity.
Qed.

Lemma repeat_snoc {A} (c : A) j l :
  repeat c j ++ c :: l = c :: repeat c j ++ l.
Proof. induction j as [| j IH]; simpl; [reflexivity | now rewrite IH]. Qed.

Lemma bin_digits_pow2 j : forall l,
  bin_digits (Nat.iter j xO xH) (string_of_list_ascii l)
  = String "1"%char (string_of_list_ascii (repeat "0"%char j ++ l)).
Proof.
  induction j as [| j IH]; intros l.
  - reflexivity.
  - change (Nat.iter (S j) xO xH) with (xO (Nat.iter j xO xH)).
    cbn [bin_digits].
    change (String "0"%char (string_of_list_ascii l))
      with (string_of_list_ascii ("0"%char :: l)).
    rewrite IH. now rewrite repeat_snoc.
Qed.

Lemma accumulate_zeros powers j : forall k q E,
  accumulate powers
    (enumerate_from k (string_of_list_ascii (repeat "0"%char j))) q E
  = (Ok q, E).
Proof.
  induction j as [| j IH]; intros k q E.
  - reflexivity.
  - cbn [repeat string_of_list_ascii enumerate_from accumulate].
    cbn [Ascii.eqb Bool.eqb]. apply IH.
Qed.

Lemma mult_pow2_returns_operand E P j :
  N E <> 0 ->
  exists E', mult (Some P) (2 ^ Z.of_nat j) E = (Ok (Some P), E')
             /\ evolves E E'.
Proof.
  intros HN. rewrite pow2_positive.
  unfold mult. cbn [py_eq Point.eq]. cbv zeta.
  change (slice_from 2 (bin (Z.pos (Nat.iter j xO xH))))
    with (bin_digits (Nat.iter j xO xH) (string_of_list_ascii [])).
  rewrite bin_digits_pow2, app_nil_r.
  unfold try_except, bind.
  set (m := (String.length _ - 1)%nat).
  destruct (safe_doublings m [Some P] ltac:(discriminate) E HN)
    as (powers & E1 & Hd & Hev & _).
  rewrite Hd.
  destruct (doublings_prefix _ _ _ _ _ Hd) as (l2 & ->).
  cbn [enumerate enumerate_from accumulate Ascii.eqb Bool.eqb].
  unfold bind, index. cbn [app nth_error ret].
  assert (Hid : sum (Some P) None E1 = (Ok (Some P), E1)) by reflexivity.
  rewrite Hid, accumulate_zeros. eauto.
Qed.

(** * Further properties of the program *)

(** ** [inverse] and [Point.__eq__] *)

(** [inverse(u, n)] raises [ValueError] when [n] is 0 or [u] shares a factor
    with [n]; otherwise it returns [v] with [u * v = 1] modulo [n], taken
    in [0 .. n-1] when [n] is positive. *)
Theorem inverse_contract (u n : Z) :
  inverse u 0 = Raise ValueError /\
  (Z.gcd u n <> 1 -> inverse u n = Raise ValueError) /\
  (n <> 0 -> Z.gcd u n = 1 ->
   exists v, inverse u n = Ok v /\ (u * v) mod n = 1 mod n /\
             (0 < n -> 0 <= v < n)).
Proof.
  split; [reflexivity |]. split.
  - intros Hg. unfold inverse. apply Z.eqb_neq in Hg. rewrite Hg.
    now destruct (n =? 0).
  - intros Hn Hg. destruct (inverse_returns u n Hn Hg) as (v & Hinv).
    exists v. split; [exact Hinv |]. split.
    + apply divide_mod_eq. now apply (inverse_divide u n v).
    + intros Hpos. now apply (inverse_spec u n v).
Qed.

(** [==] on values that are a [Point] or [None] holds exactly when both are
    [None] or both are points with the same coordinates; a point never
    equals [None]. *)
Theorem Point_eq_structural (p q : option Point.t) :
  (py_eq p q = true <-> p = q) /\
  (forall pp, Point.eq pp None = false /\ py_eq (Some pp) None = false).
Proof.
  split; [| intros pp; split; reflexivity].
  destruct p as [pp |], q as [qq |]; cbn [py_eq Point.eq].
  - change ((Point.x pp =? Point.x qq) && (Point.y pp =? Point.y qq))
      with (Point.eq pp (Some qq)).
    rewrite Point_eq_true. split; [now intros -> | now intros [= ->]].
  - split; discriminate.
  - split; discriminate.
  - split; reflexivity.
Qed.

(** ** [sum] *)

(** For two finite points, [check(p, q)] returns the gcd that [sum(p, q)]
    tests, in either order of the operands and without touching the
    curve; it divides [N]. When it is not 1, [sum] returns [None] and sets
    [div] to it; when it is 1 (and [N] is not 0), [sum] returns a finite
    point, normalised into [0 .. N-1] for a positive [N], and leaves the
    curve as it was. *)
Theorem check_predicts_sum (E : EllipticCurve.t) (p q : Point.t) :
  exists d,
    check p q E = (Ok d, E) /\ check q p E = (Ok d, E) /\
    0 <= d /\ (d | N E) /\
    (d <> 1 -> sum (Some p) (Some q) E = (Ok None, set_div d E)) /\
    (d = 1 -> N E <> 0 ->
     exists r, sum (Some p) (Some q) E = (Ok (Some r), E) /\
               (0 < N E -> 0 <= Point.x r < N E /\ 0 <= Point.y r < N E)).
Proof.
  unfold check, bind, get, ret. rewrite (Point_eq_sym q p).
  destruct (Point.eq p (Some q)) eqn:Heq.
  - apply Point_eq_true in Heq. subst q.
    exists (Z.gcd (2 * Point.y p) (N E)).
    split; [reflexivity |]. split; [reflexivity |].
    split; [apply Z.gcd_nonneg |]. split; [apply Z.gcd_divide_r |]. split.
    + intros Hg. now apply sum_doubling_fails_ne.
    + intros Hg HN. destruct (inverse_returns _ _ HN Hg) as (inv & Hinv).
      rewrite (sum_doubling_value E p inv Hinv). eexists.
      split; [reflexivity |]. intros Hpos. cbn [Point.x Point.y].
      split; apply Z.mod_pos_bound; exact Hpos.
  - exists (Z.gcd (Point.x q - Point.x p) (N E)).
    split; [reflexivity |]. split.
    { rewrite <- (Z.gcd_opp_l (Point.x q - Point.x p)).
      do 3 f_equal. ring. }
    split; [apply Z.gcd_nonneg |]. split; [apply Z.gcd_divide_r |]. split.
    + intros Hg. now apply sum_addition_fails.
    + intros Hg HN. destruct (inverse_returns _ _ HN Hg) as (inv & Hinv).
      rewrite (sum_addition_value E p q inv Heq Hinv). eexists.
      split; [reflexivity |]. intros Hpos. cbn [Point.x Point.y].
      split; apply Z.mod_pos_bound; exact Hpos.
Qed.

(** The only exception [sum] can end with is the [ValueError] of
    [inverse] on a curve whose modulus is 0, and it leaves the curve as it
    was. *)
Theorem sum_raises_only_on_zero_modulus (E E' : EllipticCurve.t)
    (p q : option Point.t) (e : exn) :
  sum p q E = (Raise e, E') ->
  e = ValueError /\ N E = 0 /\ E' = E.
Proof.
  intros Hrun.
  destruct (sum_cases p q E)
    as [(r & _ & H) | [(v & _ & _ & H) | (H0 & _ & H)]];
    rewrite H in Hrun; inversion Hrun; subst; auto.
Qed.

(** On the curve with modulus 0, adding (1, 1) and (2, 3) asks for the
    inverse of 1 modulo 0. *)
Lemma sum_raises_only_on_zero_modulus_witness :
  sum (Some (Point.mk 1 1)) (Some (Point.mk 2 3)) (init 1 0 0)
    = (Raise ValueError, init 1 0 0) /\
  ValueError = ValueError /\ N (init 1 0 0) = 0 /\ init 1 0 0 = init 1 0 0.
Proof.
  split; [reflexivity |].
  apply (sum_raises_only_on_zero_modulus (init 1 0 0) (init 1 0 0)
           (Some (Point.mk 1 1)) (Some (Point.mk 2 3)) ValueError).
  reflexivity.
Defined.

(** On a curve whose modulus is not 0, the sum of two points of the curve
    (the infinity sentinel counts as one) is returned without exception and
    is again a point of the curve or the infinity sentinel; [a], [b] and
    [N] are left as they were. *)
Theorem sum_stays_on_curve (E : EllipticCurve.t) (p q : option Point.t) :
  N E <> 0 -> on_curve E p -> on_curve E q ->
  exists r E',
    sum p q E = (Ok r, E') /\ on_curve E' r /\
    a E' = a E /\ b E' = b E /\ N E' = N E.
Proof.
  intros HN Hp Hq.
  destruct (sum_keeps_on_curve p q E HN Hp Hq) as (r & E' & Hrun & Hev & Hr).
  exists r, E'. split; [exact Hrun |].
  split; [now apply (on_curve_evolves E) |].
  destruct Hev as (Ha & Hb & HN' & _). auto.
Qed.

(** On [y^2 = x^3 + x + 4] modulo 5, (1, 1) + (2, 2) = (3, 2). *)
Lemma sum_stays_on_curve_witness :
  on_curve (init 1 4 5) (Some (Point.mk 1 1)) /\
  on_curve (init 1 4 5) (Some (Point.mk 2 2)) /\
  sum (Some (Point.mk 1 1)) (Some (Point.mk 2 2)) (init 1 4 5)
    = (Ok (Some (Point.mk 3 2)), init 1 4 5) /\
  exists r E',
    sum (Some (Point.mk 1 1)) (Some (Point.mk 2 2)) (init 1 4 5) = (Ok r, E')
    /\ on_curve E' r /\ a E' = 1 /\ b E' = 4 /\ N E' = 5.
Proof.
  split; [reflexivity |]. split; [reflexivity |]. split; [reflexivity |].
  apply (sum_stays_on_curve (init 1 4 5)
           (Some (Point.mk 1 1)) (Some (Point.mk 2 2)));
    [discriminate | reflexivity | reflexivity].
Defined.

(** ** [mult] *)

(** On a curve whose modulus is not 0, [mult(p, k)] raises nothing for any
    point and any integer [k], negative ones included (no index leaves the
    list of doublings); it leaves [a], [b] and [N] as they were, and [div]
    either as it was or different from 1. *)
Theorem mult_raises_nothing (E : EllipticCurve.t) (p : option Point.t)
    (k : Z) :
  N E <> 0 ->
  exists r E',
    mult p k E = (Ok r, E') /\
    a E' = a E /\ b E' = b E /\ N E' = N E /\
    (div E' = div E \/ div E' <> 1).
Proof.
  intros HN.
  destruct (safe_mult p k E HN) as (r & E' & Hrun & Hev & _).
  exists r, E'. split; [exact Hrun |].
  destruct Hev as (Ha & Hb & HN' & [Hd | (v & Hd & Hne)]);
    repeat split; auto.
  right. now rewrite Hd.
Qed.

(** The product by -5 on [y^2 = x^3 + x + 4] modulo 5: the digits are
    ["b101"]. *)
Lemma mult_raises_nothing_witness :
  slice_from 2 (bin (-5)) = "b101"%string /\
  exists r E',
    mult (Some (Point.mk 1 1)) (-5) (init 1 4 5) = (Ok r, E') /\
    a E' = 1 /\ b E' = 4 /\ N E' = 5 /\ (div E' = 1 \/ div E' <> 1).
Proof.
  split; [reflexivity |].
  apply (mult_raises_nothing (init 1 4 5) (Some (Point.mk 1 1)) (-5)).
  discriminate.
Defined.

(** On a curve whose modulus is not 0, the product of a point of the curve
    by any integer is again a point of the curve or the infinity
    sentinel. *)
Theorem mult_stays_on_curve (E : EllipticCurve.t) (p : option Point.t)
    (k : Z) :
  N E <> 0 -> on_curve E p ->
  exists r E', mult p k E = (Ok r, E') /\ on_curve E' r.
Proof.
  intros HN Hp.
  destruct (mult_keeps_on_curve p k E HN Hp) as (r & E' & Hrun & Hev & Hr).
  exists r, E'. split; [exact Hrun | now apply (on_curve_evolves E)].
Qed.

(** On [y^2 = x^3 + x + 4] modulo 5, the product of (1, 1) by 3 is
    (3, 2). *)
Lemma mult_stays_on_curve_witness :
  on_curve (init 1 4 5) (Some (Point.mk 1 1)) /\
  mult (Some (Point.mk 1 1)) 3 (init 1 4 5)
    = (Ok (Some (Point.mk 3 2)), init 1 4 5) /\
  exists r E',
    mult (Some (Point.mk 1 1)) 3 (init 1 4 5) = (Ok r, E') /\ on_curve E' r.
Proof.
  split; [reflexivity |]. split; [reflexivity |].
  apply (mult_stays_on_curve (init 1 4 5) (Some (Point.mk 1 1)) 3);
    [discriminate | reflexivity].
Defined.

(** The product of a finite point [P] by a power of two is [P] itself: the
    digits of [2^j] are ["1"] followed by [j] zeros, and the digit ["1"],
    read first, selects the first entry of the list of doublings. *)
Theorem mult_power_of_two_returns_operand (E : EllipticCurve.t)
    (P : Point.t) (j : nat) :
  N E <> 0 ->
  fst (mult (Some P) (2 ^ Z.of_nat j) E) = Ok (Some P).
Proof.
  intros HN.
  destruct (mult_pow2_returns_operand E P j HN) as (E' & Hrun & _).
  now rewrite Hrun.
Qed.

(** The product of (1, 1) by 8 on [y^2 = x^3 + x + 4] modulo 5. *)
Lemma mult_power_of_two_returns_operand_witness :
  N (init 1 4 5) <> 0 /\
  fst (mult (Some (Point.mk 1 1)) (2 ^ Z.of_nat 3) (init 1 4 5))
    = Ok (Some (Point.mk 1 1)).
Proof.
  split; [discriminate |].
  apply (mult_power_of_two_returns_operand (init 1 4 5) (Point.mk 1 1) 3).
  discriminate.
Defined.

(** ** [Lenstra] *)

(** The curve [Lenstra(N)] builds passes through its starting point, and
    every working point of the loop is a point of that curve or the
    infinity sentinel; after [n] passes the counter is [1 + n] and the
    curve still has the parameters it was built with. *)
Theorem Lenstra_points_stay_on_curve (N0 x0 y0 a0 : Z) :
  1 <= N0 ->
  on_curve (init a0 ((y0 * y0 - x0 * x0 * x0 - a0 * x0) mod N0) N0)
    (Some (Point.mk x0 y0)) /\
  (forall n point i E,
     passes n (Some (Point.mk x0 y0)) 1
       (init a0 ((y0 * y0 - x0 * x0 * x0 - a0 * x0) mod N0) N0)
     = Some (point, i, E) ->
     on_curve E point /\ i = 1 + Z.of_nat n /\
     a E = a0 /\ b E = (y0 * y0 - x0 * x0 * x0 - a0 * x0) mod N0 /\
     N E = N0).
Proof.
  intros HN.
  set (E0 := init a0 ((y0 * y0 - x0 * x0 * x0 - a0 * x0) mod N0) N0).
  assert (HN0 : N E0 <> 0) by (simpl; lia).
  assert (H0 : on_curve E0 (Some (Point.mk x0 y0))).
  { simpl. apply mod_0_divide.
    replace (y0 * y0
             - (x0 * x0 * x0 + a0 * x0
                + (y0 * y0 - x0 * x0 * x0 - a0 * x0) mod N0))
      with ((y0 * y0 - x0 * x0 * x0 - a0 * x0)
            - (y0 * y0 - x0 * x0 * x0 - a0 * x0) mod N0) by ring.
    apply mod_divide_self. }
  split; [exact H0 |].
  intros n point i E Hrun.
  destruct (passes_on_curve n _ _ _ _ _ _ HN0 H0 Hrun) as (Hev & Hp & Hi).
  split; [now apply (on_curve_evolves E0) |]. split; [exact Hi |].
  destruct Hev as (Ha & Hb & HN' & _). auto.
Qed.

(** [Lenstra(455839)] with draws 1, 1, 5, six passes into the loop. *)
Lemma Lenstra_points_stay_on_curve_witness :
  1 <= 455839 /\
  on_curve (init 5 ((1 * 1 - 1 * 1 * 1 - 5 * 1) mod 455839) 455839)
    (Some (Point.mk 1 1)) /\
  (forall n point i E,
     passes n (Some (Point.mk 1 1)) 1
       (init 5 ((1 * 1 - 1 * 1 * 1 - 5 * 1) mod 455839) 455839)
     = Some (point, i, E) ->
     on_curve E point /\ i = 1 + Z.of_nat n /\
     a E = 5 /\ b E = (1 * 1 - 1 * 1 * 1 - 5 * 1) mod 455839 /\
     N E = 455839).
Proof.
  split; [lia |].
  apply (Lenstra_points_stay_on_curve 455839 1 1 5). lia.
Defined.

(** When the ordinate drawn makes [gcd(2*y0, N)] different from 1,
    [Lenstra(N)] stops at its third loop test and returns that gcd: the
    product by 1 is the starting point, and the product by 2 doubles it,
    which sets [div]. *)
Theorem Lenstra_returns_gcd_of_ordinate (fuel : nat) (N0 x0 y0 a0 : Z) :
  1 <= N0 ->
  Z.gcd (2 * y0) N0 <> 1 ->
  Lenstra (3 + fuel) N0 x0 y0 a0 = Some (Ok (Z.gcd (2 * y0) N0)).
Proof. intros HN Hg. now apply Lenstra_second_pass_fails. Qed.

(** [Lenstra(15)] with draws 1, 5, 1 returns gcd(10, 15) = 5. *)
Lemma Lenstra_returns_gcd_of_ordinate_witness :
  Z.gcd (2 * 5) 15 <> 1 /\ Lenstra (3 + 0) 15 1 5 1 = Some (Ok 5).
Proof.
  split; [discriminate |].
  apply (Lenstra_returns_gcd_of_ordinate 0 15 1 5 1); [lia | discriminate].
Defined.

(** For every even [N >= 2] and every draw, [Lenstra(N)] terminates at its
    third loop test and returns [gcd(2*y0, N)], an even divisor of [N]. *)
Theorem Lenstra_even_modulus_terminates (fuel : nat) (N0 x0 y0 a0 : Z) :
  2 <= N0 -> (2 | N0) ->
  Lenstra (3 + fuel) N0 x0 y0 a0 = Some (Ok (Z.gcd (2 * y0) N0)) /\
  (2 | Z.gcd (2 * y0) N0) /\ (Z.gcd (2 * y0) N0 | N0).
Proof.
  intros HN Heven.
  assert (H2 : (2 | Z.gcd (2 * y0) N0)).
  { apply Z.gcd_greatest; [apply Z.divide_factor_l | exact Heven]. }
  split; [| split; [exact H2 | apply Z.gcd_divide_r]].
  apply Lenstra_second_pass_fails; [lia |].
  intros H1. rewrite H1 in H2. apply Z.divide_1_r in H2. lia.
Qed.

(** [Lenstra(6)] with draws 1, 1, 1 returns 2. *)
Lemma Lenstra_even_modulus_terminates_witness :
  (2 <= 6 /\ (2 | 6)) /\
  Lenstra (3 + 0) 6 1 1 1 = Some (Ok (Z.gcd (2 * 1) 6)) /\
  (2 | Z.gcd (2 * 1) 6) /\ (Z.gcd (2 * 1) 6 | 6).
Proof.
  split; [split; [lia | exists 3; reflexivity] |].
  apply (Lenstra_even_modulus_terminates 0 6 1 1 1);
    [lia | exists 3; reflexivity].
Defined.

(** [Lenstra(1)] never returns: modulo 1 every gcd is 1, so [div] stays 1,
    and the working point never becomes the infinity sentinel. *)
Theorem Lenstra_modulus_one_runs_forever (fuel : nat) (x0 y0 a0 : Z) :
  Lenstra fuel 1 x0 y0 a0 = None.
Proof.
  destruct (Lenstra fuel 1 x0 y0 a0) as [r |] eqn:Hrun; [| reflexivity].
  exfalso.
  destruct (Lenstra_outcome fuel 1 x0 y0 a0 r (Z.le_refl 1) Hrun)
    as (E' & _ & Hne & Hev).
  destruct Hev as (_ & _ & _ & [Hd | (v & Hd & Hg)]).
  - apply Hne. rewrite Hd. reflexivity.
  - apply Hg. cbn [N init]. apply Z.gcd_1_r.
Qed.

(** For a prime [N], a run of [Lenstra(N)] that terminates returns [N]
    itself. *)
Theorem Lenstra_on_prime_returns_N (fuel : nat) (N0 x0 y0 a0 : Z)
    (r : result Z) :
  Z.prime N0 ->
  Lenstra fuel N0 x0 y0 a0 = Some r ->
  r = Ok N0.
Proof.
  intros Hprime Hrun.
  pose proof (Z.prime_ge_2 N0 Hprime) as HN.
  destruct (Lenstra_outcome fuel N0 x0 y0 a0 r ltac:(lia) Hrun)
    as (E' & -> & Hne & Hev).
  destruct Hev as (_ & _ & _ & [Hd | (v & Hd & Hg)]).
  - exfalso. apply Hne. rewrite Hd. reflexivity.
  - cbn [N init] in Hd, Hg. rewrite Hd. f_equal.
    pose proof (Z.gcd_nonneg v N0) as Hpos.
    destruct (Z.divide_prime_r (Z.gcd v N0) N0 Hprime (Z.gcd_divide_r v N0))
      as [H | [H | [H | H]]]; lia.
Qed.

(** [Lenstra(3)] with draws 1, 3, 1 returns 3. *)
Lemma Lenstra_on_prime_returns_N_witness :
  Z.prime 3 /\ Lenstra 3 3 1 3 1 = Some (Ok 3) /\ Ok 3 = Ok 3.
Proof.
  split; [exact Z.prime_3 |]. split; [reflexivity |].
  apply (Lenstra_on_prime_returns_N 3 3 1 3 1 (Ok 3) Z.prime_3). reflexivity.
Defined.

(** ** [Point.__repr__] *)

Lemma decimal_inj z1 z2 : decimal z1 = decimal z2 -> z1 = z2.
Proof.
  unfold decimal. intros Heq.
  assert (Hparse : forall z,
            DecimalString.NilZero.int_of_string
              (DecimalString.NilZero.string_of_int (Z.to_int z))
            = Some (Z.to_int z)).
  { intros z. apply DecimalString.NilZero.isi; destruct z as [| p | p];
      try discriminate; cbn; intros [= H];
      now apply DecimalPos.Unsigned.to_uint_nonnil in H. }
  pose proof (Hparse z1) as H1. rewrite Heq, Hparse in H1.
  inversion H1 as [H]. rewrite <- (DecimalZ.of_to z1), <- (DecimalZ.of_to z2).
  now rewrite H.
Qed.

Lemma split_at_comma_uint d t :
  before "," (DecimalString.NilEmpty.string_of_uint d ++ String "," t)
  = DecimalString.NilEmpty.string_of_uint d /\
  after "," (DecimalString.NilEmpty.string_of_uint d ++ String "," t) = t.
Proof.
  induction d as [| d IH | d IH | d IH | d IH | d IH | d IH | d IH | d IH
                  | d IH | d IH]; simpl;
    try (destruct IH as (-> & ->)); split; reflexivity.
Qed.

Lemma split_at_comma_decimal z t :
  before "," (decimal z ++ String "," t) = decimal z /\
  after "," (decimal z ++ String "," t) = t.
Proof.
  unfold decimal. destruct (Z.to_int z) as [d | d];
    unfold DecimalString.NilZero.string_of_int,
           DecimalString.NilZero.string_of_uint.
  - destruct d; try apply split_at_comma_uint. split; reflexivity.
  - cbn [append before after Ascii.eqb Bool.eqb].
    destruct d;
      try (destruct (split_at_comma_uint d t) as (H1 & H2));
      try (cbn [append before after Ascii.eqb Bool.eqb]; split; reflexivity);
      match goal with
      | |- context [DecimalString.NilEmpty.string_of_uint ?u] =>
          destruct (split_at_comma_uint u t) as (-> & ->)
      end; split; reflexivity.
Qed.

Lemma append_last_inj s1 s2 c :
  (s1 ++ String c "" = s2 ++ String c "")%string -> s1 = s2.
Proof.
  revert s2. induction s1 as [| c1 s1 IH]; intros [| c2 s2] Heq;
    simpl in Heq.
  - reflexivity.
  - inversion Heq as [[Hc Hs]]. destruct s2; discriminate.
  - inversion Heq as [[Hc Hs]]. destruct s1; discriminate.
  - inversion Heq as [[Hc Hs]]. f_equal. now apply IH.
Qed.

Lemma comma_split z1 t1 z2 t2 :
  (decimal z1 ++ String "," t1 = decimal z2 ++ String "," t2)%string ->
  decimal z1 = decimal z2 /\ t1 = t2.
Proof.
  intros Heq.
  destruct (split_at_comma_decimal z1 t1) as (Hb1 & Ha1).
  destruct (split_at_comma_decimal z2 t2) as (Hb2 & Ha2).
  split.
  - rewrite <- Hb1, <- Hb2. now rewrite Heq.
  - rewrite <- Ha1, <- Ha2. now rewrite Heq.
Qed.

Lemma str_cases m z :
  (str m z = Ok (decimal z) /\ (m = 0 \/ digit_count z <= m)%nat) \/
  (str m z = Raise ValueError /\ (0 < m < digit_count z)%nat).
Proof.
  unfold str.
  destruct (Nat.ltb_spec 0 m) as [H0 | H0];
    destruct (Nat.ltb_spec m (digit_count z)) as [H1 | H1]; cbn [andb].
  - right. split; [reflexivity | lia].
  - left. split; [reflexivity | lia].
  - left. split; [reflexivity | lia].
  - left. split; [reflexivity | lia].
Qed.

Lemma repr_rendering m p s :
  Point.repr m p = Ok s ->
  s = ("(x,y) = (" ++ decimal (Point.x p) ++ ", "
         ++ decimal (Point.y p) ++ ")")%string.
Proof.
  unfold Point.repr.
  destruct (str_cases m (Point.x p)) as [(-> & _) | (-> & _)];
    [| discriminate].
  destruct (str_cases m (Point.y p)) as [(-> & _) | (-> & _)];
    [| discriminate].
  now intros [= <-].
Qed.

(** [repr] renders a point as ["(x,y) = (<x>, <y>)"] with decimal
    coordinates when both coordinates are within the interpreter's limit
    on integer string conversion (or there is no limit), and raises
    [ValueError] when one of them has more digits; two points rendered
    alike are the same point. *)
Theorem repr_determines_point (max_str_digits : nat) (p q : Point.t) :
  ((max_str_digits = 0
    \/ (digit_count (Point.x p) <= max_str_digits
        /\ digit_count (Point.y p) <= max_str_digits))%nat ->
   Point.repr max_str_digits p
   = Ok ("(x,y) = (" ++ decimal (Point.x p) ++ ", "
           ++ decimal (Point.y p) ++ ")")%string) /\
  ((0 < max_str_digits
    /\ (max_str_digits < digit_count (Point.x p)
        \/ max_str_digits < digit_count (Point.y p)))%nat ->
   Point.repr max_str_digits p = Raise ValueError) /\
  (forall s, Point.repr max_str_digits p = Ok s ->
             Point.repr max_str_digits q = Ok s -> p = q).
Proof.
  split; [| split].
  - intros Hfit. unfold Point.repr.
    destruct (str_cases max_str_digits (Point.x p)) as [(-> & _) | (_ & Hx)];
      [| lia].
    destruct (str_cases max_str_digits (Point.y p)) as [(-> & _) | (_ & Hy)];
      [reflexivity | lia].
  - intros (Hpos & Hbig). unfold Point.repr.
    destruct (str_cases max_str_digits (Point.x p)) as [(-> & Hx) | (-> & _)];
      [| reflexivity].
    destruct (str_cases max_str_digits (Point.y p)) as [(-> & Hy) | (-> & _)];
      [lia | reflexivity].
  - intros s Hp Hq.
    apply repr_rendering in Hp, Hq. rewrite Hp in Hq. clear Hp.
    cbn [append] in Hq. inversion Hq as [Htail]. clear Hq.
    destruct (comma_split (Point.x p)
                (String " " (decimal (Point.y p) ++ ")"))
                (Point.x q)
                (String " " (decimal (Point.y q) ++ ")")) Htail)
      as (Hx & Hrest).
    inversion Hrest as [Hy].
    apply append_last_inj in Hy.
    apply decimal_inj in Hx, Hy.
    destruct p as [px py], q as [qx qy]. cbn [Point.x Point.y] in *.
    now subst.
Qed.

(** Under the default limit of 4300 digits, (12, -5) renders; under a
    limit of 640 digits, a point whose abscissa is [10^640], of 641 digits,
    does not, while [10^639] still does. *)
Example repr_examples :
  Point.repr 4300 (Point.mk 12 (-5)) = Ok "(x,y) = (12, -5)"%string /\
  Point.repr 0 (Point.mk 0 (-120)) = Ok "(x,y) = (0, -120)"%string /\
  digit_count (10 ^ 639) = 640%nat /\
  digit_count (- 10 ^ 640) = 641%nat /\
  Point.repr 640 (Point.mk (10 ^ 640) 1) = Raise ValueError /\
  Point.repr 640 (Point.mk 1 (- 10 ^ 640)) = Raise ValueError.
Proof.
  split; [vm_compute; reflexivity |]. split; [vm_compute; reflexivity |].
  split; [vm_compute; reflexivity |]. split; [vm_compute; reflexivity |].
  split; vm_compute; reflexivity.
Qed.
